(** * iptv-pt-term: the playlist parser and the navigation state of [index.ts]

    A shallow embedding of [src/index.ts]: the M3U parser [parseM3U], the
    group derivation [computeGroups], the filter [applyFilter], the loader
    [loadPlaylist] and the key handlers that cycle the active group.

    - A string is a [string] of code units; the embedding is exact on ASCII
      texts (white space, letter case and the character classes of the
      regular expression are those of the ASCII range).
    - [undefined] is [None]; a value of type [string | undefined] is falsy
      when it is [None] or the empty string.
    - [groupIdx] is a JavaScript number: an integer or [NaN].
    - [localeCompare] belongs to the host; it is a parameter, assumed to be a
      consistent comparator.
    - The widgets, the network and the media player are outside of the
      program: the state keeps what the code hands to them, and the result of
      [fetchText] is an input of [loadPlaylist]. *)

From Stdlib Require Import ZArith Ascii String List Sorted Permutation Lia.
From Equations Require Import Equations.
From stdpp Require Import gmap strings list.

Local Open Scope Z_scope.

(** ** JavaScript strings *)

Module Js.

(** The double quote, as a character and as a one-character string. *)
Definition dquote : ascii := "034"%char.
Definition dq : string := String dquote "".

(** White space and line terminators removed by [String.prototype.trim]. *)
Definition isWhiteSpace (c : ascii) : bool :=
  match c with
  | "009" | "010" | "011" | "012" | "013" | " " => true
  | _ => false
  end%char.

Fixpoint trimStart (s : string) : string :=
  match s with
  | "" => ""
  | String c s' => if isWhiteSpace c then trimStart s' else s
  end.

Fixpoint trimEnd (s : string) : string :=
  match s with
  | "" => ""
  | String c s' =>
      match trimEnd s' with
      | "" => if isWhiteSpace c then "" else String c ""
      | t => String c t
      end
  end.

Definition trim (s : string) : string := trimEnd (trimStart s).

(** [s.startsWith(p)] *)
Fixpoint startsWith (p s : string) : bool :=
  match p, s with
  | "", _ => true
  | String a p', String b s' => if decide (a = b) then startsWith p' s' else false
  | String _ _, "" => false
  end.

(** [s.includes(q)] *)
Fixpoint includes (q s : string) : bool :=
  startsWith q s ||
  match s with
  | "" => false
  | String _ s' => includes q s'
  end.

Definition lowerChar (c : ascii) : ascii :=
  let n := N_of_ascii c in
  if ((65 <=? n) && (n <=? 90))%N then ascii_of_N (n + 32) else c.

Fixpoint toLowerCase (s : string) : string :=
  match s with
  | "" => ""
  | String c s' => String (lowerChar c) (toLowerCase s')
  end.

(** [s.split(sep)] for a one-character separator: never the empty array. *)
Fixpoint split (sep : ascii) (s : string) : list string :=
  match s with
  | "" => [""]
  | String c s' =>
      if decide (c = sep) then "" :: split sep s'
      else match split sep s' with
           | h :: t => String c h :: t
           | [] => [String c ""]
           end
  end.

(** [text.split(/\r?\n/)]: a line ends at a line feed, and a carriage
    return just before that line feed belongs to the separator. *)
Fixpoint splitLines (s : string) : list string :=
  match s with
  | "" => [""]
  | String c s' =>
      let cons_char := match splitLines s' with
                       | h :: t => String c h :: t
                       | [] => [String c ""]
                       end in
      if decide (c = "010"%char) then "" :: splitLines s'
      else if decide (c = "013"%char) then
        match s' with
        | String "010"%char s'' => "" :: splitLines s''
        | _ => cons_char
        end
      else cons_char
  end.

(** Truthiness of a value of type [string | undefined]. *)
Definition truthy (v : option string) : bool :=
  match v with
  | Some (String _ _) => true
  | _ => false
  end.

(** [a || b] on [string | undefined]. *)
Definition or (a b : option string) : option string :=
  if truthy a then a else b.

(** [a || d] with a string default. *)
Definition or_default (a : option string) (d : string) : string :=
  match a with
  | Some (String c s) => String c s
  | _ => d
  end.

End Js.

(** ** Channels *)

(** [interface Channel].  [attrs] is a plain object used as a dictionary;
    the parser and the filter never read the order of its keys. *)
Record Channel : Type := mkChannel {
  name : string;
  url : string;
  group : option string;
  logo : option string;
  attrs : gmap string string;
}.

Global Instance Channel_eq_dec : EqDecision Channel.
Proof. solve_decision. Defined.

(** ** The attribute scan of [parseM3U]

    [attrRegex] matches a key (one or more letters, digits, underscores or
    hyphens, as few as possible), an equals sign, a double quote, a value (any
    characters but the double quote, as many as possible) and a double quote;
    it is global, so every [exec] resumes after the previous match. *)

Definition isKeyChar (c : ascii) : bool :=
  let n := N_of_ascii c in
  ((97 <=? n) && (n <=? 122) || (65 <=? n) && (n <=? 90) ||
   (48 <=? n) && (n <=? 57) || (n =? 95) || (n =? 45))%N.

Definition notQuote (c : ascii) : bool := negb (bool_decide (c = Js.dquote)).

(** The longest prefix of characters satisfying [p], and the rest. *)
Fixpoint span (p : ascii → bool) (s : string) : string * string :=
  match s with
  | "" => ("", "")
  | String c s' =>
      if p c then let '(a, b) := span p s' in (String c a, b) else ("", s)
  end.

(** A match of [attrRegex] that starts at the first character of [s]: the
    key, the value and the text after the closing quote.  A key character is
    never ['='], so the lazy [+?] can only stop at the end of the run of key
    characters. *)
Definition matchAt (s : string) : option (string * string * string) :=
  match span isKeyChar s with
  | (String k0 k, String "="%char (String "034"%char r)) =>
      match span notQuote r with
      | (v, String _ rest) => Some (String k0 k, v, rest)
      | (_, "") => None
      end
  | _ => None
  end.

(** [attrRegex.exec] from [lastIndex]: the leftmost match in [s], where [s]
    is the text from [lastIndex] on. *)
Fixpoint exec (s : string) : option (string * string * string) :=
  match matchAt s with
  | Some m => Some m
  | None => match s with
            | "" => None
            | String _ s' => exec s'
            end
  end.

Definition inspect {A : Type} (a : A) : {b : A | a = b} := exist _ a eq_refl.

(** Case analysis on the eight bits of a character. *)
Ltac ascii_cases c := destruct c as [[] [] [] [] [] [] [] []].

Lemma span_length p s a b :
  span p s = (a, b) → String.length s = (String.length a + String.length b)%nat.
Proof.
  revert a b. induction s as [|c s IH]; intros a b; simpl.
  - intros [= <- <-]. reflexivity.
  - destruct (p c).
    + destruct (span p s) as [a' b'] eqn:E. intros [= <- <-]. simpl.
      f_equal. by apply IH.
    + intros [= <- <-]. reflexivity.
Qed.

Lemma matchAt_shorter s k v rest :
  matchAt s = Some (k, v, rest) → (String.length rest < String.length s)%nat.
Proof.
  unfold matchAt. destruct (span isKeyChar s) as [a b] eqn:Ea.
  destruct a as [|k0 a]; [done|].
  destruct b as [|c1 b]; [done|].
  destruct (decide (c1 = "="%char)) as [->|]; [|by ascii_cases c1].
  destruct b as [|c2 b]; [done|].
  destruct (decide (c2 = "034"%char)) as [->|]; [|by ascii_cases c2].
  destruct (span notQuote b) as [v' r'] eqn:Ev.
  destruct r' as [|c3 r']; [done|]. intros [= <- <- <-].
  apply span_length in Ea, Ev. simpl in *. lia.
Qed.

Lemma exec_shorter s k v rest :
  exec s = Some (k, v, rest) → (String.length rest < String.length s)%nat.
Proof.
  induction s as [|c s IH]; simpl.
  - done.
  - destruct (matchAt (String c s)) as [m|] eqn:E.
    + intros [= ->]. by apply matchAt_shorter in E.
    + intros H. apply IH in H. lia.
Qed.

(** The successive results of [attrRegex.exec(line)] in the [while] loop, up
    to the first [null]. *)
Equations? execAll (s : string) : list (string * string)
  by wf (String.length s) lt :=
  execAll s with inspect (exec s) := {
    | exist _ None _ => [];
    | exist _ (Some (k, v, rest)) e => (k, v) :: execAll rest }.
Proof. by apply exec_shorter in e. Qed.

(** [o[k] = v] on an object made by the literal [{}].  Such an object
    inherits the accessor [__proto__] of [Object.prototype]: an assignment to
    that one key runs the inherited setter, which ignores a string, and no
    own property is made.  Every other key becomes an own property. *)
Definition setProp (k v : string) (o : gmap string string) : gmap string string :=
  if decide (k = "__proto__") then o else <[k := v]> o.

(** The body of the [while] loop, run on every match in turn. *)
Definition extractAttrs (line : string) : gmap string string :=
  foldl (λ o kv, setProp kv.1 kv.2 o) ∅ (execAll line).

(** [(line.split(',').pop() || '').trim()] *)
Definition channelName (line : string) : string :=
  Js.trim (Js.or_default (last (Js.split "," line)) "").

(** The object pushed on [channels]. *)
Definition channelOf (name url : string) (attrs : gmap string string) : Channel :=
  {| name := name;
     url := url;
     group := Js.or (Js.or (attrs !! "group-title") (attrs !! "group")) None;
     logo := Js.or (attrs !! "tvg-logo") None;
     attrs := attrs |}.

(** ** [parseM3U]

    [parseFrom] is the [for] loop with [lines[i]] the head of its argument;
    [findUrl] is the inner [while] loop, which advances the same index. *)
Fixpoint parseFrom (lines : list string) {struct lines} : list Channel :=
  match lines with
  | [] => []
  | l :: rest =>
      let line := Js.trim l in
      if negb (Js.truthy (Some line)) || negb (Js.startsWith "#EXTINF" line)
      then parseFrom rest
      else findUrl (channelName line) (extractAttrs line) rest
  end
with findUrl (name : string) (attrs : gmap string string)
       (lines : list string) {struct lines} : list Channel :=
  match lines with
  | [] => []
  | l :: rest =>
      let maybe := Js.trim l in
      if Js.truthy (Some maybe) && negb (Js.startsWith "#" maybe)
      then channelOf name maybe attrs :: parseFrom rest
      else findUrl name attrs rest
  end.

Definition parseM3U (text : string) : list Channel :=
  parseFrom (Js.splitLines text).

(** ** Numbers and array reads *)

(** The values that [groupIdx] can take: an integer or [NaN]. *)
Inductive Number : Type :=
  | NaN
  | Int (z : Z).

Global Instance Number_eq_dec : EqDecision Number.
Proof. solve_decision. Defined.

(** [x + k] for an integer constant [k]. *)
Definition plus (x : Number) (k : Z) : Number :=
  match x with
  | NaN => NaN
  | Int z => Int (z + k)
  end.

(** [x % n] for an array length [n]: the sign is that of the dividend, and the
    remainder by zero is [NaN]. *)
Definition remainder (x : Number) (n : Z) : Number :=
  match x with
  | NaN => NaN
  | Int z => if decide (n = 0) then NaN else Int (Z.rem z n)
  end.

(** [arr[i]]: [undefined] unless [i] is an index of [arr]. *)
Definition at_index {A : Type} (arr : list A) (i : Number) : option A :=
  match i with
  | NaN => None
  | Int z => if decide (0 ≤ z) then arr !! Z.to_nat z else None
  end.

(** ** String comparison

    [String.prototype.localeCompare] is the host's collation; the program
    only relies on its being a consistent comparator (a total preorder),
    which is what [Array.prototype.sort] asks of its argument. *)
Class Collator : Type := {
  localeCompare : string → string → Z;
  localeCompare_total a b : localeCompare a b ≤ 0 ∨ localeCompare b a ≤ 0;
  localeCompare_trans a b c :
    localeCompare a b ≤ 0 → localeCompare b c ≤ 0 → localeCompare a c ≤ 0;
}.

(** [a] does not come after [b] in the collation. *)
Definition notAfter `{Collator} (a b : string) : Prop := localeCompare a b ≤ 0.

(** ** The state of the program *)

(** What [status] is called with. *)
Inductive Status : Type :=
  | Loading
  | Initialising
  | Downloading
  | Loaded (channels groups : Z)
  | Failure (message : string).

(** The module-level variables [all], [filtered], [groups] and [groupIdx],
    and what the widgets hold: the text of the search box, the items and the
    selected row of the list, the group shown in the header and the content
    of the footer. *)
Record UI : Type := mkUI {
  all : list Channel;
  filtered : list Channel;
  groups : list string;
  groupIdx : Number;
  searchValue : string;
  listItems : list string;
  listSelected : Z;
  headerGroup : option string;
  footer : Status;
}.

Definition initial : UI :=
  {| all := []; filtered := []; groups := []; groupIdx := Int 0;
     searchValue := ""; listItems := []; listSelected := 0;
     headerGroup := None; footer := Loading |}.

Definition status (msg : Status) (st : UI) : UI :=
  {| all := all st; filtered := filtered st; groups := groups st;
     groupIdx := groupIdx st; searchValue := searchValue st;
     listItems := listItems st; listSelected := listSelected st;
     headerGroup := headerGroup st; footer := msg |}.

Definition fmtItem (c : Channel) : string :=
  match group c with
  | Some (String a g) => name c +:+ " · " +:+ String a g
  | _ => name c
  end.

(** What [fetchText] ends with: the text of the playlist, or an error. *)
Inductive Fetched : Type :=
  | Text (text : string)
  | Thrown (message : string).

Section Navigation.
Context `{Collator}.

(** [Set.prototype.add]: a set lists its elements in insertion order. *)
Definition setAdd (x : string) (set : list string) : list string :=
  if decide (x ∈ set) then set else set ++ [x].

(** [Array.prototype.sort] with a comparator: a stable sort. *)
Fixpoint insertSorted (compare : string → string → Z) (x : string)
    (l : list string) : list string :=
  match l with
  | [] => [x]
  | y :: l' =>
      if decide (compare x y ≤ 0) then x :: l
      else y :: insertSorted compare x l'
  end.

Definition sort (compare : string → string → Z) (l : list string) : list string :=
  foldr (insertSorted compare) [] l.

(** The callback of [all.forEach]: [c => c.group && set.add(c.group)]. *)
Definition addGroup (set : list string) (c : Channel) : list string :=
  match group c with
  | Some (String a g) => setAdd (String a g) set
  | _ => set
  end.

(** The set that [computeGroups] builds, listed in insertion order. *)
Definition groupSet (channels : list Channel) : list string :=
  foldl addGroup [] channels.

Definition computeGroups (st : UI) : UI :=
  {| all := all st; filtered := filtered st;
     groups := "All" :: sort (λ a b, localeCompare a b) (groupSet (all st));
     groupIdx := groupIdx st; searchValue := searchValue st;
     listItems := listItems st; listSelected := listSelected st;
     headerGroup := headerGroup st; footer := footer st |}.

(** The predicate handed to [all.filter] in [applyFilter], for the
    normalised query [q] and the group label [g]. *)
Definition matches (q g : string) (c : Channel) : bool :=
  let inGroup :=
    bool_decide (g = "All") ||
    bool_decide (Js.toLowerCase <$> group c = Some (Js.toLowerCase g)) in
  let text := Js.toLowerCase (name c +:+ " " +:+ Js.or_default (group c) "") in
  inGroup && (bool_decide (q = "") || Js.includes q text).

Definition applyFilter (st : UI) : UI :=
  let q := Js.toLowerCase (Js.trim (Js.or_default (Some (searchValue st)) "")) in
  let g := Js.or_default (at_index (groups st) (groupIdx st)) "All" in
  let filtered := List.filter (matches q g) (all st) in
  {| all := all st; filtered := filtered; groups := groups st;
     groupIdx := groupIdx st; searchValue := searchValue st;
     listItems := fmtItem <$> filtered; listSelected := 0;
     headerGroup := at_index (groups st) (groupIdx st);
     footer := footer st |}.

Definition setAll (channels : list Channel) (st : UI) : UI :=
  {| all := channels; filtered := filtered st; groups := groups st;
     groupIdx := groupIdx st; searchValue := searchValue st;
     listItems := listItems st; listSelected := listSelected st;
     headerGroup := headerGroup st; footer := footer st |}.

(** [loadPlaylist] from the point where [fetchText] has settled. *)
Definition loadPlaylistResume (r : Fetched) (st : UI) : UI :=
  match r with
  | Thrown message => status (Failure message) st
  | Text text =>
      let st := setAll (parseM3U text) st in
      if decide (length (all st) = 0%nat)
      then status (Failure "No channels found in playlist.") st
      else
        let st := computeGroups st in
        let st := status (Loaded (Z.of_nat (length (all st)))
                                 (Z.of_nat (length (groups st)) - 1)) st in
        applyFilter st
  end.

(** [loadPlaylist], with no other event between its two halves. *)
Definition loadPlaylist (r : Fetched) (st : UI) : UI :=
  loadPlaylistResume r (status Downloading st).

(** The initial load at the end of the module. *)
Definition start (r : Fetched) : UI :=
  loadPlaylist r (status Initialising initial).

(** The handlers of [tab], [S-tab] and [r]. *)
Definition keyTab (st : UI) : UI :=
  let n := Z.of_nat (length (groups st)) in
  applyFilter
    {| all := all st; filtered := filtered st; groups := groups st;
       groupIdx := remainder (plus (groupIdx st) 1) n;
       searchValue := searchValue st;
       listItems := listItems st; listSelected := listSelected st;
       headerGroup := headerGroup st; footer := footer st |}.

Definition keyShiftTab (st : UI) : UI :=
  let n := Z.of_nat (length (groups st)) in
  applyFilter
    {| all := all st; filtered := filtered st; groups := groups st;
       groupIdx := remainder (plus (plus (groupIdx st) (-1)) n) n;
       searchValue := searchValue st;
       listItems := listItems st; listSelected := listSelected st;
       headerGroup := headerGroup st; footer := footer st |}.

Definition keyR (r : Fetched) (st : UI) : UI := loadPlaylist r st.

(** The handler of [keypress] on the search box, once the box holds [v]. *)
Definition searchKeypress (v : string) (st : UI) : UI :=
  applyFilter
    {| all := all st; filtered := filtered st; groups := groups st;
       groupIdx := groupIdx st; searchValue := v;
       listItems := listItems st; listSelected := listSelected st;
       headerGroup := headerGroup st; footer := footer st |}.

End Navigation.

(** ** The events of the program

    Each handler runs to its end before the next one starts.  A reload is two
    events, since other handlers can run while [fetchText] is pending:
    [loadPlaylist] up to the [await], and [loadPlaylist] once the fetch has
    settled. *)
Inductive Event : Type :=
  | Tab
  | ShiftTab
  | ReloadRequested
  | FetchSettled (r : Fetched)
  | SearchKeypress (v : string)
  | SearchSubmit.

Section Events.
Context `{Collator}.

Definition handle (e : Event) (st : UI) : UI :=
  match e with
  | Tab => keyTab st
  | ShiftTab => keyShiftTab st
  | ReloadRequested => status Downloading st
  | FetchSettled r => loadPlaylistResume r st
  | SearchKeypress v => searchKeypress v st
  | SearchSubmit => applyFilter st
  end.

Definition run (events : list Event) (st : UI) : UI :=
  foldl (λ st e, handle e st) st events.

End Events.

(** ** Line endings *)

(** The text with a carriage return put before every line feed. *)
Fixpoint withCRLF (s : string) : string :=
  match s with
  | "" => ""
  | String c s' =>
      if decide (c = "010"%char)
      then String "013" (String "010" (withCRLF s'))
      else String c (withCRLF s')
  end.

(** ** The command line *)

(** [args.indexOf(x)]: the first position of [x], or -1. *)
Fixpoint indexOf (x : string) (args : list string) : Z :=
  match args with
  | [] => -1
  | a :: args' =>
      if decide (a = x) then 0
      else let i := indexOf x args' in
           if decide (i = -1) then -1 else i + 1
  end.

(** [STAY] *)
Definition stayFlag (args : list string) : bool := bool_decide ("--stay" ∈ args).

(** [MPV_CMD] *)
Definition mpvCommand (args : list string) : string :=
  let idx := indexOf "--mpv" args in
  let possibleMPV := at_index args (Int (idx + 1)) in
  if bool_decide (0 ≤ idx) && Js.truthy possibleMPV
  then default "" possibleMPV
  else "mpv".

(** ** Playing a channel *)

(** The two constants read from the command line. *)
Record Config : Type := mkConfig {
  STAY : bool;
  MPV_CMD : string;
}.

(** What the handler of [enter] does to the outside, in order: the messages
    it hands to [status], the probe and the start of the player, and the end
    of the screen. *)
Inductive Effect : Type :=
  | ShowPlaying (name : string)
  | ShowLaunched
  | ShowError (message : string)
  | Probe (cmd : string)
  | DestroyScreen
  | SpawnForeground (cmd url : string)
  | SpawnDetached (cmd url : string).

Global Instance Effect_eq_dec : EqDecision Effect.
Proof. solve_decision. Defined.

(** [probe.status === 0], for the status that [spawnSync] reports ([null]
    when the command could not be run). *)
Definition ensureMpvAvailable (probeStatus : option Z) : bool :=
  bool_decide (probeStatus = Some 0).

(** [playInMpv]: its effects, and the message of the error it throws, if
    any.  In the foreground the process ends with the player. *)
Definition playInMpv (cfg : Config) (probeStatus : option Z) (url : string)
    : list Effect * option string :=
  let hasMpv := ensureMpvAvailable probeStatus in
  if negb hasMpv
  then ([Probe (MPV_CMD cfg)],
        Some "mpv not found. Install mpv or pass a custom binary with --mpv <path>.")
  else if negb (STAY cfg)
  then ([Probe (MPV_CMD cfg); DestroyScreen; SpawnForeground (MPV_CMD cfg) url], None)
  else ([Probe (MPV_CMD cfg); SpawnDetached (MPV_CMD cfg) url; ShowLaunched], None).

(** The handler of [enter] on the list, for the row [scroll] that
    [list.getScroll()] reports. *)
Definition keyEnter (cfg : Config) (scroll : option Number)
    (probeStatus : option Z) (st : UI) : list Effect :=
  let idx := default (Int 0) scroll in
  match at_index (filtered st) idx with
  | None => []
  | Some c =>
      let '(effects, thrown) := playInMpv cfg probeStatus (url c) in
      ShowPlaying (name c) :: effects ++
      match thrown with
      | Some message => [ShowError message]
      | None => []
      end
  end.

(** ** The sidebar *)

(** [s.slice(0, e)] *)
Fixpoint takeChars (n : nat) (s : string) : string :=
  match n, s with
  | S n', String c s' => String c (takeChars n' s')
  | _, _ => ""
  end.

Definition sliceTo (s : string) (e : Z) : string :=
  let len := Z.of_nat (String.length s) in
  let k := if decide (e < 0) then Z.max (len + e) 0 else Z.min e len in
  takeChars (Z.to_nat k) s.

Section Sidebar.

(** The code unit of the horizontal ellipsis, which lies outside of the ASCII
    range. *)
Variable ellipsis : ascii.

(** [Object.entries]: the own properties of an object, in the order that the
    host lists them. *)
Variable entries : gmap string string → list (string * string).

Definition truncate (s : string) (n : Z) : string :=
  if decide (Z.of_nat (String.length s) ≤ n) then s
  else sliceTo s (n - 1) +:+ String ellipsis "".


End Sidebar.

(** ** A collation to run the examples with

    Comparison by code units.  It satisfies the two laws; the examples use it
    only on labels that the host's collation orders the same way. *)
Definition codeUnitCompare (a b : string) : Z :=
  match String.compare a b with
  | Lt => -1
  | Eq => 0
  | Gt => 1
  end.

Lemma codeUnitCompare_le a b : codeUnitCompare a b ≤ 0 ↔ String.le a b.
Proof.
  unfold codeUnitCompare, String.le, String.leb.
  destruct (String.compare a b); simpl; intuition lia.
Qed.

Lemma codeUnitCompare_total a b :
  codeUnitCompare a b ≤ 0 ∨ codeUnitCompare b a ≤ 0.
Proof.
  rewrite !codeUnitCompare_le. destruct (total String.le a b); auto.
Qed.

Lemma codeUnitCompare_trans a b c :
  codeUnitCompare a b ≤ 0 → codeUnitCompare b c ≤ 0 → codeUnitCompare a c ≤ 0.
Proof. rewrite !codeUnitCompare_le. apply transitivity. Qed.

Definition codeUnitCollator : Collator :=
  {| localeCompare := codeUnitCompare;
     localeCompare_total := codeUnitCompare_total;
     localeCompare_trans := codeUnitCompare_trans |}.

(** * The vocabulary of the properties *)

(** [c] is the record of the marker line [l] and the locator line [u]. *)
Definition recordOf (l u : string) (c : Channel) : Prop :=
  Js.startsWith "#EXTINF" (Js.trim l) = true ∧
  Js.trim u ≠ "" ∧
  Js.startsWith "#" (Js.trim u) = false ∧
  c = channelOf (channelName (Js.trim l)) (Js.trim u) (extractAttrs (Js.trim l)).

(** A line that cannot serve as a locator: empty once trimmed, or a comment. *)
Definition noLocator (l : string) : Prop :=
  Js.trim l = "" ∨ Js.startsWith "#" (Js.trim l) = true.

(** The group as the claim words it: the value of [group-title] when that
    attribute is present, else the value of [group] when present, else
    absent. *)
Definition groupByPresence (a : gmap string string) : option string :=
  match a !! "group-title" with
  | Some v => Some v
  | None => a !! "group"
  end.

(** An attribute that is present with a non-empty value. *)
Definition nonEmptyValue (v : option string) : option string :=
  match v with
  | Some (String c s) => Some (String c s)
  | _ => None
  end.

(** The group as the code computes it: empty values count as absent. *)
Definition groupByTruthiness (a : gmap string string) : option string :=
  match nonEmptyValue (a !! "group-title") with
  | Some v => Some v
  | None => nonEmptyValue (a !! "group")
  end.

(** Every character of [s] satisfies [p]. *)
Fixpoint allChars (p : ascii → bool) (s : string) : bool :=
  match s with
  | "" => true
  | String c s' => p c && allChars p s'
  end.

(** The text of an attribute: the key, an equals sign and the quoted value. *)
Definition attribute (k v : string) : string :=
  k +:+ "=" +:+ Js.dq +:+ v +:+ Js.dq.

(** A key of the regular expression's character class and a value without a
    double quote. *)
Definition keyAndValue (k v : string) : Prop :=
  k ≠ "" ∧ allChars isKeyChar k = true ∧ allChars notQuote v = true.

(** The value of the last pair with key [k]. *)
Definition lastValue (k : string) (pairs : list (string * string)) : option string :=
  snd <$> last (filter (λ kv, kv.1 = k) pairs).

(** The last character of [s] satisfies [p]. *)
Fixpoint lastCharSatisfies (p : ascii → bool) (s : string) : bool :=
  match s with
  | "" => false
  | String c "" => p c
  | String _ s' => lastCharSatisfies p s'
  end.

(** [q] occurs in [s] as a substring. *)
Definition occursIn (q s : string) : Prop := ∃ pre post, s = pre +:+ q +:+ post.

(** The text that the query is searched in: name, a space, group. *)
Definition searchText (c : Channel) : string :=
  name c +:+ " " +:+ default "" (group c).

(** The entry's group equals [g] up to case. *)
Definition sameGroup (c : Channel) (g : string) : Prop :=
  ∃ cg, group c = Some cg ∧ Js.toLowerCase cg = Js.toLowerCase g.

(** The query is empty or occurs, up to case, in the entry's text. *)
Definition queryMatches (query : string) (c : Channel) : Prop :=
  query = "" ∨ occursIn (Js.toLowerCase query) (Js.toLowerCase (searchText c)).

(** The filter predicate in the words of the spec. *)
Definition visible (query g : string) (c : Channel) : Prop :=
  (g = "All" ∨ sameGroup c g) ∧ queryMatches query c.

(** The label that [applyFilter] filters by: [groups[groupIdx] || 'All']. *)
Definition activeGroup (st : UI) : string :=
  Js.or_default (at_index (groups st) (groupIdx st)) "All".

(** [i] is not an index of [arr]. *)
Definition outOfBounds {A : Type} (arr : list A) (i : Number) : Prop :=
  match i with
  | NaN => True
  | Int z => z < 0 ∨ Z.of_nat (length arr) ≤ z
  end.

(** [NaN] or a natural number. *)
Definition naturalOrNaN (x : Number) : Prop :=
  match x with
  | NaN => True
  | Int z => 0 ≤ z
  end.

(** Cycling forward as many times as the group list is long leads back to
    the index it started from. *)
Definition cyclesBack (st : UI) : Prop :=
  groupIdx (Nat.iter (length (groups st)) keyTab st) = groupIdx st.

(** The label at the group index, when there is one. *)
Definition activeLabel (st : UI) : option string :=
  at_index (groups st) (groupIdx st).

(** The effect of a reload from [st] to [st'] as the claim words it. *)
Definition keepsLabelAndResetsQuery (st st' : UI) : Prop :=
  (∀ label, activeLabel st = Some label →
     if decide (label ∈ groups st') then activeLabel st' = Some label
     else groupIdx st' = Int 0) ∧
  searchValue st' = "" ∧
  listSelected st' = 0.

(** A channel as the parser makes them: with a url, and with a group that is
    not the empty string. *)
Definition wellFormed (c : Channel) : Prop := url c ≠ "" ∧ group c ≠ Some "".

(** The shape of the group list: empty before the first load, and after it
    "All" followed by distinct, non-empty labels in ascending order. *)
Definition groupListShape `{Collator} (gs : list string) : Prop :=
  gs = [] ∨
  ∃ rest, gs = "All" :: rest ∧ NoDup rest ∧ StronglySorted notAfter rest ∧ "" ∉ rest.

(** What holds of the state between any two events. *)
Definition consistent `{Collator} (st : UI) : Prop :=
  listItems st = fmtItem <$> filtered st ∧
  naturalOrNaN (groupIdx st) ∧
  Forall wellFormed (all st) ∧
  Forall wellFormed (filtered st) ∧
  groupListShape (groups st).

(** The effect starts the player with [cmd] on [url]. *)
Definition launches (cmd url : string) (e : Effect) : Prop :=
  e = SpawnForeground cmd url ∨ e = SpawnDetached cmd url.

(** The effect is a message on the footer or the probe. *)
Definition harmless (e : Effect) : Prop :=
  match e with
  | ShowPlaying _ | ShowError _ | Probe _ => True
  | _ => False
  end.

(** * Example data *)

(** The playlist of the spec's Example 1. *)
Definition lf : string := String "010" "".

Definition example1 : string :=
  "#EXTINF:-1 group-title=" +:+ Js.dq +:+ "News" +:+ Js.dq +:+ ",ACME News" +:+ lf +:+
  "http://x/1" +:+ lf +:+
  "#EXTINF:-1,Jazz FM" +:+ lf +:+
  "http://x/2".

Definition acmeNews : Channel :=
  {| name := "ACME News"; url := "http://x/1"; group := Some "News";
     logo := None; attrs := {[ "group-title" := "News" ]} |}.

Definition jazzFM : Channel :=
  {| name := "Jazz FM"; url := "http://x/2"; group := None;
     logo := None; attrs := ∅ |}.

(** Example 1 followed by a marker line that nothing follows. *)
Definition example2 : string := example1 +:+ lf +:+ "#EXTINF:-1,Lost" +:+ lf.

(** A marker line without a comma, and its locator line. *)
Definition exampleNoComma : string := "#EXTINF:-1" +:+ lf +:+ "http://x/1".

(** A marker line with an empty [group-title] and a non-empty [group]. *)
Definition exampleEmptyGroupTitle : string :=
  "#EXTINF:-1 group-title=" +:+ Js.dq +:+ Js.dq +:+
  " group=" +:+ Js.dq +:+ "Sports" +:+ Js.dq +:+ ",Arena" +:+ lf +:+
  "http://x/3".

(** A marker line that writes the attribute [__proto__]. *)
Definition exampleProto : string :=
  "#EXTINF:-1 " +:+ attribute "__proto__" "x" +:+ ",Proto" +:+ lf +:+ "http://x/4".

(** A playlist with two groups. *)
Definition example4 : string :=
  "#EXTINF:-1 group-title=" +:+ Js.dq +:+ "News" +:+ Js.dq +:+ ",ACME News" +:+ lf +:+
  "http://x/1" +:+ lf +:+
  "#EXTINF:-1 group-title=" +:+ Js.dq +:+ "Music" +:+ Js.dq +:+ ",Jazz FM" +:+ lf +:+
  "http://x/2".

(** The states after a first load of Example 1 and of the two-group
    playlist. *)
Definition loaded1 : UI := @start codeUnitCollator (Text example1).

Definition loaded4 : UI := @start codeUnitCollator (Text example4).

(** Example 1 loaded, with [" jazz"] (a leading space) typed in the search
    box. *)
Definition typedJazz : UI := searchKeypress " jazz" loaded1.

(** The state in which the first load starts. *)
Definition booting : UI := status Initialising initial.

(** The two-group playlist loaded, the group "News" made active with two
    [tab]s, and "acme" typed in the search box. *)
Definition browsingNews : UI := searchKeypress "acme" (keyTab (keyTab loaded4)).

(** Then Example 1 reloaded: its group list is shorter, and the group index
    is left past its end. *)
Definition staleIndex : UI :=
  @loadPlaylist codeUnitCollator (Text example1) browsingNews.

(** * Properties *)

(** ** The examples, evaluated *)

Example trim_example : Js.trim "  a b  " = "a b".
Proof. reflexivity. Qed.

Example splitLines_example :
  Js.splitLines ("a" +:+ String "013" (String "010" "b") +:+ String "010" "")
  = ["a"; "b"; ""].
Proof. reflexivity. Qed.

Example parseM3U_example1 : parseM3U example1 = [acmeNews; jazzFM].
Proof. vm_compute. reflexivity. Qed.

Example loaded1_value :
  loaded1 =
  {| all := [acmeNews; jazzFM]; filtered := [acmeNews; jazzFM];
     groups := ["All"; "News"]; groupIdx := Int 0; searchValue := "";
     listItems := ["ACME News · News"; "Jazz FM"]; listSelected := 0;
     headerGroup := Some "All"; footer := Loaded 2 1 |}.
Proof. vm_compute. reflexivity. Qed.

Example groups_loaded4 : groups loaded4 = ["All"; "Music"; "News"].
Proof. vm_compute. reflexivity. Qed.

(** ** Strings *)

Lemma truthy_Some s : Js.truthy (Some s) = true ↔ s ≠ "".
Proof. destruct s; simpl; split; congruence. Qed.

Lemma or_None_not_empty a : Js.or a None ≠ Some "".
Proof. unfold Js.or. destruct a as [[|c s]|]; simpl; congruence. Qed.

Lemma or_None_cases a :
  Js.or a None = match a with
                 | Some (String c s) => Some (String c s)
                 | _ => None
                 end.
Proof. by destruct a as [[|c s]|]. Qed.

(** ** The shape of the records of [parseM3U] *)

Lemma parseFrom_cons l rest :
  parseFrom (l :: rest) =
  if negb (Js.truthy (Some (Js.trim l))) || negb (Js.startsWith "#EXTINF" (Js.trim l))
  then parseFrom rest
  else findUrl (channelName (Js.trim l)) (extractAttrs (Js.trim l)) rest.
Proof. reflexivity. Qed.

Lemma findUrl_cons n a l rest :
  findUrl n a (l :: rest) =
  if Js.truthy (Some (Js.trim l)) && negb (Js.startsWith "#" (Js.trim l))
  then channelOf n (Js.trim l) a :: parseFrom rest
  else findUrl n a rest.
Proof. reflexivity. Qed.

Lemma parseFrom_findUrl_shape lines :
  (∀ c, c ∈ parseFrom lines → ∃ l u, l ∈ lines ∧ u ∈ lines ∧ recordOf l u c) ∧
  (∀ n a c, c ∈ findUrl n a lines →
     (∃ u, u ∈ lines ∧ Js.trim u ≠ "" ∧ Js.startsWith "#" (Js.trim u) = false ∧
           c = channelOf n (Js.trim u) a) ∨
     (∃ l u, l ∈ lines ∧ u ∈ lines ∧ recordOf l u c)).
Proof.
  induction lines as [|x rest [IHp IHf]].
  - split; [intros c Hc|intros n a c Hc]; by apply elem_of_nil in Hc.
  - split.
    + intros c Hc. rewrite parseFrom_cons in Hc.
      destruct (negb (Js.truthy (Some (Js.trim x))) ||
                negb (Js.startsWith "#EXTINF" (Js.trim x))) eqn:E.
      * destruct (IHp c Hc) as (l & u & Hl & Hu & Hr).
        exists l, u. split_and!; [by right|by right|done].
      * apply orb_false_iff in E as [_ E%negb_false_iff].
        destruct (IHf _ _ c Hc) as [(u & Hu & H1 & H2 & ->)|(l & u & Hl & Hu & Hr)].
        -- exists x, u. split_and!; [by left|by right|done].
        -- exists l, u. split_and!; [by right|by right|done].
    + intros n a c Hc. rewrite findUrl_cons in Hc.
      destruct (Js.truthy (Some (Js.trim x)) &&
                negb (Js.startsWith "#" (Js.trim x))) eqn:E.
      * apply andb_true_iff in E as [E1%truthy_Some E2%negb_true_iff].
        apply elem_of_cons in Hc as [->|Hc].
        -- left. exists x. split_and!; [by left|done..].
        -- right. destruct (IHp c Hc) as (l & u & Hl & Hu & Hr).
           exists l, u. split_and!; [by right|by right|done].
      * destruct (IHf n a c Hc) as [(u & Hu & H1 & H2 & ->)|(l & u & Hl & Hu & Hr)].
        -- left. exists u. split_and!; [by right|done..].
        -- right. exists l, u. split_and!; [by right|by right|done].
Qed.

Lemma parseM3U_shape text c :
  c ∈ parseM3U text →
  ∃ l u, l ∈ Js.splitLines text ∧ u ∈ Js.splitLines text ∧ recordOf l u c.
Proof. apply parseFrom_findUrl_shape. Qed.

(** Every record takes its name and its attributes from a marker line. *)
Lemma parseM3U_name_attrs text c :
  c ∈ parseM3U text →
  ∃ l, l ∈ Js.splitLines text ∧
       Js.startsWith "#EXTINF" (Js.trim l) = true ∧
       name c = channelName (Js.trim l) ∧
       attrs c = extractAttrs (Js.trim l).
Proof.
  intros (l & u & Hl & _ & Hm & _ & _ & ->)%parseM3U_shape. by exists l.
Qed.

Lemma startsWith_hash_of_marker s :
  Js.startsWith "#EXTINF" s = true → Js.startsWith "#" s = true.
Proof.
  destruct s as [|c s]; simpl; [done|]. by destruct (decide ("#"%char = c)).
Qed.

Lemma noLocator_test l :
  noLocator l →
  Js.truthy (Some (Js.trim l)) && negb (Js.startsWith "#" (Js.trim l)) = false.
Proof.
  intros [->| ->]; [done|]. by rewrite andb_false_r.
Qed.

Lemma parse_of_noLocator tail :
  Forall noLocator tail →
  parseFrom tail = [] ∧ ∀ n a, findUrl n a tail = [].
Proof.
  induction 1 as [|x tail Hx _ [IHp IHf]]; [done|]. split.
  - rewrite parseFrom_cons. destruct (_ || _); [done|]. apply IHf.
  - intros n a. by rewrite findUrl_cons, noLocator_test.
Qed.

Lemma parse_app_noLocator pre tail :
  Forall noLocator tail →
  parseFrom (pre ++ tail) = parseFrom pre ∧
  ∀ n a, findUrl n a (pre ++ tail) = findUrl n a pre.
Proof.
  intros Htail. induction pre as [|x pre [IHp IHf]].
  - by apply parse_of_noLocator.
  - rewrite <- app_comm_cons. split.
    + rewrite !parseFrom_cons. destruct (_ || _); [done|]. apply IHf.
    + intros n a. rewrite !findUrl_cons.
      destruct (_ && _); [by rewrite IHp|apply IHf].
Qed.

(** ** The name of a record *)

Lemma split_not_nil sep s : Js.split sep s ≠ [].
Proof.
  destruct s as [|c s]; simpl; [done|].
  destruct (decide (c = sep)); [done|]. by destruct (Js.split sep s).
Qed.

Lemma includes_char_cons sep c s :
  Js.includes (String sep "") (String c s) =
  bool_decide (sep = c) || Js.includes (String sep "") s.
Proof.
  simpl. destruct (decide (sep = c)) as [->|Hne].
  - by rewrite bool_decide_eq_true_2.
  - by rewrite bool_decide_eq_false_2.
Qed.

Lemma includes_char_empty sep : Js.includes (String sep "") "" = false.
Proof. reflexivity. Qed.

Lemma split_without_separator sep s :
  Js.includes (String sep "") s = false → Js.split sep s = [s].
Proof.
  induction s as [|c s IH]; [done|].
  rewrite includes_char_cons. intros [Hc Hs]%orb_false_iff.
  apply bool_decide_eq_false in Hc. simpl.
  destruct (decide (c = sep)); [congruence|]. by rewrite IH.
Qed.

Lemma split_app sep pre post :
  Js.split sep (pre +:+ String sep post) = Js.split sep pre ++ Js.split sep post.
Proof.
  induction pre as [|c pre IH]; simpl.
  - by destruct (decide (sep = sep)).
  - destruct (decide (c = sep)); [by rewrite IH|].
    rewrite IH. destruct (Js.split sep pre) eqn:E; [|done].
    by apply split_not_nil in E.
Qed.

(** With a comma on the line, the name is the trimmed text after the last
    comma. *)
Lemma channelName_after_last_comma pre post :
  Js.includes "," post = false →
  channelName (pre +:+ "," +:+ post) = Js.trim post.
Proof.
  intros Hpost. unfold channelName.
  change (pre +:+ "," +:+ post) with (pre +:+ String ","%char post).
  rewrite split_app, (split_without_separator _ post Hpost).
  rewrite last_snoc. by destruct post.
Qed.

(** Without a comma, [split] gives back the whole line, and so does [pop]:
    the name is the whole marker line, trimmed. *)
Lemma channelName_without_comma line :
  Js.includes "," line = false → channelName line = Js.trim line.
Proof.
  intros Hline. unfold channelName.
  rewrite (split_without_separator _ line Hline). simpl. by destruct line.
Qed.

(** C4: every record of [parseM3U] has a non-empty [url]; and a marker line
    that no locator line follows (every later line is empty once trimmed or
    starts with a hash sign) gives no record: the records of the text are
    those of the lines before that marker. *)
Theorem parseM3U_url_nonempty_and_unlocated_marker_dropped :
  (∀ text c, c ∈ parseM3U text → url c ≠ "") ∧
  (∀ text pre marker tail,
     Js.splitLines text = pre ++ marker :: tail →
     Js.startsWith "#EXTINF" (Js.trim marker) = true →
     Forall noLocator tail →
     parseM3U text = parseFrom pre).
Proof.
  split.
  - intros text c (l & u & _ & _ & _ & Hu & _ & ->)%parseM3U_shape. done.
  - intros text pre marker tail Hlines Hmarker Htail. unfold parseM3U.
    rewrite Hlines. apply parse_app_noLocator. constructor; [|done].
    right. by apply startsWith_hash_of_marker.
Qed.

Lemma parseM3U_url_nonempty_and_unlocated_marker_dropped_witness :
  url acmeNews ≠ "" ∧ parseM3U example2 = [acmeNews; jazzFM].
Proof.
  destruct parseM3U_url_nonempty_and_unlocated_marker_dropped as [Hurl Hdrop].
  split.
  - apply (Hurl example1). rewrite parseM3U_example1. by left.
  - rewrite (Hdrop example2 (Js.splitLines example1) "#EXTINF:-1,Lost" [""]).
    + exact parseM3U_example1.
    + vm_compute. reflexivity.
    + vm_compute. reflexivity.
    + constructor; [|constructor]. left. reflexivity.
Defined.

(** C3: on a marker line without a comma the name is not the empty string:
    [split] gives back the whole line and [pop] takes it, so the record's
    name is the marker line itself. *)
Theorem parseM3U_name_without_comma :
  Js.includes "," "#EXTINF:-1" = false ∧
  parseM3U exampleNoComma =
    [ {| name := "#EXTINF:-1"; url := "http://x/1"; group := None;
         logo := None; attrs := ∅ |} ].
Proof. split; vm_compute; reflexivity. Qed.

(** ** The group of a record *)

(** C8, as stated, fails: with [group-title] present and empty, the group is
    the value of [group], not the (empty) value of [group-title]. *)
Lemma group_by_presence_counterexample :
  ¬ (∀ c, c ∈ parseM3U exampleEmptyGroupTitle → group c = groupByPresence (attrs c)).
Proof.
  intros Hclaim.
  specialize (Hclaim
    {| name := "Arena"; url := "http://x/3"; group := Some "Sports";
       logo := None;
       attrs := {[ "group-title" := ""; "group" := "Sports" ]} |}).
  assert (Some "Sports" = Some "") as [=]. apply Hclaim.
  vm_compute. left.
Qed.

(** C8, amended: the group of every record is the value of [group-title]
    when that attribute is present and not empty, else the value of [group]
    when present and not empty, else absent. *)
Theorem parseM3U_group_by_truthiness text c :
  c ∈ parseM3U text → group c = groupByTruthiness (attrs c).
Proof.
  intros (l & u & _ & _ & _ & _ & _ & ->)%parseM3U_shape.
  unfold channelOf, groupByTruthiness, Js.or; simpl.
  destruct (extractAttrs (Js.trim l) !! "group-title") as [[|? ?]|];
    destruct (extractAttrs (Js.trim l) !! "group") as [[|? ?]|]; reflexivity.
Qed.

Lemma parseM3U_group_by_truthiness_witness :
  group acmeNews = groupByTruthiness (attrs acmeNews).
Proof.
  apply (parseM3U_group_by_truthiness example1).
  rewrite parseM3U_example1. left.
Defined.

(** ** The attributes of a marker line *)

Lemma string_app_cons c s t : String c s +:+ t = String c (s +:+ t).
Proof. reflexivity. Qed.

Lemma string_app_nil_r s : s +:+ "" = s.
Proof. induction s as [|c s IH]; [done|]. by rewrite string_app_cons, IH. Qed.

Lemma string_app_assoc s t u : (s +:+ t) +:+ u = s +:+ t +:+ u.
Proof. induction s as [|c s IH]; [done|]. by rewrite !string_app_cons, IH. Qed.

Lemma execAll_Some s k v rest :
  exec s = Some (k, v, rest) → execAll s = (k, v) :: execAll rest.
Proof. funelim (execAll s); intros E; congruence. Qed.

Lemma execAll_None s : exec s = None → execAll s = [].
Proof. funelim (execAll s); intros E; congruence. Qed.

(** Induction along the successive matches. *)
Lemma execAll_ind (P : string → list (string * string) → Prop) :
  (∀ s, exec s = None → P s []) →
  (∀ s k v rest,
     exec s = Some (k, v, rest) → P rest (execAll rest) →
     P s ((k, v) :: execAll rest)) →
  ∀ s, P s (execAll s).
Proof.
  intros Hnone Hsome s. apply (execAll_elim (λ s l, P s l)).
  - intros s' k v rest e IH _. by apply Hsome.
  - intros s' e _. by apply Hnone.
Qed.

Lemma span_spec p s a b :
  span p s = (a, b) →
  s = a +:+ b ∧ allChars p a = true ∧
  match b with
  | "" => True
  | String c _ => p c = false
  end.
Proof.
  revert a b. induction s as [|c s IH]; intros a b; simpl.
  - by intros [= <- <-].
  - destruct (p c) eqn:Hc.
    + destruct (span p s) as [a' b'] eqn:E. intros [= <- <-].
      destruct (IH _ _ eq_refl) as (-> & Ha & Hb). simpl. by rewrite Hc, Ha.
    + by intros [= <- <-].
Qed.

Lemma notQuote_false c : notQuote c = false → c = Js.dquote.
Proof.
  unfold notQuote. intros Hc%negb_false_iff. by apply bool_decide_eq_true in Hc.
Qed.

Lemma matchAt_spec s k v rest :
  matchAt s = Some (k, v, rest) →
  s = attribute k v +:+ rest ∧ keyAndValue k v.
Proof.
  unfold matchAt. destruct (span isKeyChar s) as [a b] eqn:Ea.
  destruct a as [|k0 a]; [done|].
  destruct b as [|c1 b]; [done|].
  destruct (decide (c1 = "="%char)) as [->|];
    [|by ascii_cases c1].
  destruct b as [|c2 b]; [done|].
  destruct (decide (c2 = "034"%char)) as [->|];
    [|by ascii_cases c2].
  destruct (span notQuote b) as [v' r'] eqn:Ev.
  destruct r' as [|c3 r']; [done|]. intros [= <- <- <-].
  apply span_spec in Ea as (-> & Hk & _).
  apply span_spec in Ev as (-> & Hv & ->%notQuote_false).
  split; [|done]. unfold attribute, Js.dq.
  by rewrite !string_app_assoc.
Qed.

Lemma exec_spec s k v rest :
  exec s = Some (k, v, rest) →
  ∃ pre, s = pre +:+ attribute k v +:+ rest ∧ keyAndValue k v.
Proof.
  induction s as [|c s IH]; simpl; [done|].
  destruct (matchAt (String c s)) as [m|] eqn:E.
  - intros [= ->]. apply matchAt_spec in E as [-> Hkv]. by exists "".
  - intros (pre & -> & Hkv)%IH. by exists (String c pre).
Qed.

(** Every pair found on a line is an attribute written on that line, and its
    value is the text between the two quotes, taken as it stands. *)
Lemma execAll_sound line k v :
  (k, v) ∈ execAll line →
  ∃ pre post, line = pre +:+ attribute k v +:+ post ∧ keyAndValue k v.
Proof.
  revert k v. pattern line, (execAll line). apply execAll_ind; clear line.
  - intros s _ k v Hin. by apply elem_of_nil in Hin.
  - intros s k0 v0 rest (pre & -> & Hkv)%exec_spec IH k v Hin.
    apply elem_of_cons in Hin as [[= -> ->]|Hin].
    + by exists pre, rest.
    + destruct (IH _ _ Hin) as (pre' & post' & -> & Hkv').
      exists (pre +:+ attribute k0 v0 +:+ pre'), post'. split; [|done].
      by rewrite !string_app_assoc.
Qed.

Lemma lastValue_cons k k' v' pairs :
  lastValue k ((k', v') :: pairs) =
  match lastValue k pairs with
  | Some v => Some v
  | None => if decide (k' = k) then Some v' else None
  end.
Proof.
  unfold lastValue. rewrite filter_cons. simpl.
  destruct (decide (k' = k)) as [->|Hne].
  - rewrite last_cons. by destruct (last _).
  - by destruct (last _).
Qed.

Lemma foldl_setProp_lookup pairs (m : gmap string string) k :
  k ≠ "__proto__" →
  foldl (λ o kv, setProp kv.1 kv.2 o) m pairs !! k =
  match lastValue k pairs with
  | Some v => Some v
  | None => m !! k
  end.
Proof.
  intros Hk. revert m. induction pairs as [|[k' v'] pairs IH]; intros m; [done|].
  simpl. rewrite IH, lastValue_cons. destruct (lastValue k pairs); [done|].
  unfold setProp. destruct (decide (k' = "__proto__")) as [->|Hk'].
  - by destruct (decide ("__proto__" = k)).
  - destruct (decide (k' = k)) as [->|Hne].
    + by rewrite lookup_insert_eq.
    + by rewrite lookup_insert_ne.
Qed.

(** Later occurrences of a key overwrite earlier ones: the value kept for a
    key other than [__proto__] is that of its last occurrence on the line. *)
Lemma extractAttrs_lookup line k :
  k ≠ "__proto__" → extractAttrs line !! k = lastValue k (execAll line).
Proof.
  intros Hk. unfold extractAttrs. rewrite foldl_setProp_lookup by done.
  by destruct (lastValue k (execAll line)).
Qed.

Lemma foldl_setProp_proto pairs (m : gmap string string) :
  foldl (λ o kv, setProp kv.1 kv.2 o) m pairs !! "__proto__" = m !! "__proto__".
Proof.
  revert m. induction pairs as [|[k' v'] pairs IH]; intros m; [done|].
  simpl. rewrite IH. unfold setProp.
  destruct (decide (k' = "__proto__")); [done|]. by rewrite lookup_insert_ne.
Qed.

(** The key [__proto__] never becomes a property of [attrs]. *)
Lemma extractAttrs_proto line : extractAttrs line !! "__proto__" = None.
Proof. unfold extractAttrs. by rewrite foldl_setProp_proto. Qed.

(** C7: the key [__proto__], written with a quoted value on a marker line
    and found by the scan, is not in the mapping of the record: the
    assignment to that key does not make a property. *)
Theorem parseM3U_attribute_proto_lost :
  execAll ("#EXTINF:-1 " +:+ attribute "__proto__" "x" +:+ ",Proto")
    = [("__proto__", "x")] ∧
  parseM3U exampleProto =
    [ {| name := "Proto"; url := "http://x/4"; group := None; logo := None;
         attrs := ∅ |} ].
Proof. split; vm_compute; reflexivity. Qed.

Lemma allChars_app p a b :
  allChars p (a +:+ b) = allChars p a && allChars p b.
Proof.
  induction a as [|c a IH]; [done|].
  rewrite string_app_cons. simpl. by rewrite IH, andb_assoc.
Qed.

Lemma allChars_lastChar p s :
  allChars p s = true → s ≠ "" → lastCharSatisfies p s = true.
Proof.
  induction s as [|c s IH]; [done|]. simpl.
  intros [Hc Hs]%andb_true_iff _. destruct s as [|c' s]; [done|].
  by apply IH.
Qed.

Lemma span_app_stop p a b :
  allChars p a = true →
  match b with
  | "" => True
  | String c _ => p c = false
  end →
  span p (a +:+ b) = (a, b).
Proof.
  intros Ha Hb. induction a as [|c a IH].
  - destruct b as [|c b]; [done|]. simpl. by rewrite Hb.
  - simpl in Ha. apply andb_true_iff in Ha as [Hc Ha].
    rewrite string_app_cons. simpl. by rewrite Hc, IH.
Qed.

Lemma span_app_l p s a c b x :
  span p s = (a, String c b) → span p (s +:+ x) = (a, String c b +:+ x).
Proof.
  revert a. induction s as [|c' s IH]; intros a; simpl; [done|].
  rewrite string_app_cons. simpl. destruct (p c') eqn:Hc.
  - destruct (span p s) as [a' b'] eqn:E. intros [= <- ->].
    by rewrite (IH _ eq_refl).
  - by intros [= <- <- <-].
Qed.

Lemma isKeyChar_notQuote c : isKeyChar c = true → notQuote c = true.
Proof.
  intros Hc. destruct (notQuote c) eqn:E; [done|].
  apply notQuote_false in E as ->. done.
Qed.

Lemma matchAt_attribute k v post :
  keyAndValue k v → matchAt (attribute k v +:+ post) = Some (k, v, post).
Proof.
  intros (Hk & Hkey & Hval). unfold matchAt, attribute, Js.dq.
  rewrite !string_app_assoc.
  rewrite (span_app_stop isKeyChar k) by done.
  destruct k as [|k0 k]; [done|].
  change ("=" +:+ String Js.dquote "" +:+ v +:+ String Js.dquote "" +:+ post)
    with (String "="%char (String "034"%char (v +:+ String Js.dquote post))).
  simpl. rewrite (span_app_stop notQuote v) by done. done.
Qed.

(** No match starts in a text without double quote that does not end in a
    key character, when a key follows. *)
Lemma matchAt_in_prefix c pre k rest :
  allChars notQuote (String c pre) = true →
  lastCharSatisfies isKeyChar (String c pre) = false →
  k ≠ "" → allChars isKeyChar k = true →
  matchAt (String c pre +:+ k +:+ rest) = None.
Proof.
  intros Hq Hlast Hk Hkey. unfold matchAt.
  destruct (span isKeyChar (String c pre)) as [a b] eqn:E.
  destruct (span_spec _ _ _ _ E) as (Heq & Ha & Hb).
  destruct b as [|c1 b].
  { rewrite string_app_nil_r in Heq. subst a.
    by rewrite allChars_lastChar in Hlast. }
  rewrite (span_app_l _ _ _ _ _ _ E).
  destruct a as [|a0 a]; [done|].
  rewrite Heq, allChars_app in Hq. apply andb_true_iff in Hq as [_ Hq].
  simpl in Hq. apply andb_true_iff in Hq as [_ Hq].
  rewrite string_app_cons.
  destruct (decide (c1 = "="%char)) as [->|];
    [|by ascii_cases c1].
  destruct b as [|c2 b].
  - destruct k as [|k0 k]; [done|]. simpl.
    simpl in Hkey. apply andb_true_iff in Hkey as [Hk0%isKeyChar_notQuote _].
    destruct (decide (k0 = "034"%char)) as [->|]; [done|].
    by ascii_cases k0.
  - simpl in Hq. apply andb_true_iff in Hq as [Hc2 _]. rewrite string_app_cons.
    destruct (decide (c2 = "034"%char)) as [->|]; [done|].
    by ascii_cases c2.
Qed.

Lemma lastCharSatisfies_tail p c s :
  s ≠ "" → lastCharSatisfies p (String c s) = lastCharSatisfies p s.
Proof. by destruct s. Qed.

Lemma exec_matchAt s m : matchAt s = Some m → exec s = Some m.
Proof. destruct s; simpl; [done|by intros ->]. Qed.

Lemma exec_cons_None c s :
  matchAt (String c s) = None → exec (String c s) = exec s.
Proof. simpl. by intros ->. Qed.

Lemma exec_attribute pre k v post :
  allChars notQuote pre = true →
  lastCharSatisfies isKeyChar pre = false →
  keyAndValue k v →
  exec (pre +:+ attribute k v +:+ post) = Some (k, v, post).
Proof.
  intros Hq Hlast Hkv. induction pre as [|c pre IH].
  - by apply exec_matchAt, matchAt_attribute.
  - rewrite string_app_cons, exec_cons_None.
    + apply IH.
      * simpl in Hq. by apply andb_true_iff in Hq as [_ ?].
      * destruct pre as [|c' pre]; [done|].
        by rewrite lastCharSatisfies_tail in Hlast.
    + destruct Hkv as (Hk & Hkey & Hval).
      rewrite <- string_app_cons. unfold attribute.
      rewrite !string_app_assoc. by apply matchAt_in_prefix.
Qed.

Lemma matchAt_needs_quote s : allChars notQuote s = true → matchAt s = None.
Proof.
  intros Hs. destruct (matchAt s) as [[[k v] rest]|] eqn:E; [|done].
  apply matchAt_spec in E as [-> _]. unfold attribute, Js.dq in Hs.
  rewrite !allChars_app in Hs. simpl in Hs.
  by rewrite !andb_false_r, ?andb_false_l in Hs.
Qed.

Lemma exec_needs_quote s : allChars notQuote s = true → exec s = None.
Proof.
  induction s as [|c s IH]; intros Hs; [done|].
  simpl. rewrite matchAt_needs_quote by done.
  simpl in Hs. apply andb_true_iff in Hs as [_ Hs]. by apply IH.
Qed.

(** An attribute written after a text without double quote that does not end
    in a key character is the first pair found, and the scan resumes after
    its closing quote; a text without double quote holds no attribute. *)
Lemma execAll_attribute pre k v post :
  allChars notQuote pre = true →
  lastCharSatisfies isKeyChar pre = false →
  keyAndValue k v →
  execAll (pre +:+ attribute k v +:+ post) = (k, v) :: execAll post.
Proof. intros. by apply execAll_Some, exec_attribute. Qed.

Lemma execAll_needs_quote s : allChars notQuote s = true → execAll s = [].
Proof. intros. by apply execAll_None, exec_needs_quote. Qed.

(** ** The visible channels *)

Lemma startsWith_spec p s :
  Js.startsWith p s = true ↔ ∃ post, s = p +:+ post.
Proof.
  revert s. induction p as [|a p IH]; intros s; simpl.
  - split; [intros _; by exists s|done].
  - destruct s as [|b s].
    + split; [done|]. by intros [post ?].
    + destruct (decide (a = b)) as [->|Hne].
      * rewrite IH. split; intros [post Hpost]; exists post.
        -- by rewrite string_app_cons, <- Hpost.
        -- rewrite string_app_cons in Hpost. by injection Hpost.
      * split; [done|]. intros [post Hpost].
        rewrite string_app_cons in Hpost. by injection Hpost.
Qed.

Lemma includes_spec q s : Js.includes q s = true ↔ occursIn q s.
Proof.
  unfold occursIn. induction s as [|c s IH]; simpl.
  - rewrite orb_false_r, startsWith_spec. split.
    + intros [post Hpost]. by exists "", post.
    + intros (pre & post & Hs). destruct pre as [|? ?]; [by exists post|done].
  - rewrite orb_true_iff, startsWith_spec, IH. split.
    + intros [[post Hpost]|(pre & post & ->)].
      * by exists "", post.
      * by exists (String c pre), post.
    + intros (pre & post & Hs). destruct pre as [|c' pre].
      * left. by exists post.
      * right. rewrite string_app_cons in Hs. injection Hs as -> ->.
        by exists pre, post.
Qed.

Lemma toLowerCase_empty s : Js.toLowerCase s = "" ↔ s = "".
Proof. by destruct s. Qed.

Lemma or_default_empty v : Js.or_default v "" = default "" v.
Proof. by destruct v as [[|? ?]|]. Qed.

(** The predicate of the code decides the predicate of the spec, for the
    query once trimmed. *)
Lemma matches_visible query g c :
  matches (Js.toLowerCase query) g c = true ↔ visible query g c.
Proof.
  unfold matches, visible, queryMatches, sameGroup, searchText.
  rewrite andb_true_iff, !orb_true_iff, !bool_decide_eq_true.
  rewrite includes_spec, toLowerCase_empty, or_default_empty.
  apply and_iff_compat_r, or_iff_compat_l.
  destruct (group c) as [cg|]; simpl.
  - split; [intros [= Heq]; by exists cg|intros (? & [= <-] & ->); done].
  - split; [done|]. by intros (? & ? & _).
Qed.

Lemma filter_matches_visible query g
    `{!∀ c, Decision (visible query g c)} (l : list Channel) :
  List.filter (matches (Js.toLowerCase query) g) l = filter (visible query g) l.
Proof.
  induction l as [|c l IH]; [done|]. simpl. rewrite filter_cons, IH.
  destruct (matches (Js.toLowerCase query) g c) eqn:E.
  - apply matches_visible in E. by rewrite decide_True.
  - rewrite decide_False; [done|]. rewrite <- matches_visible. by rewrite E.
Qed.

Lemma filtered_applyFilter st :
  filtered (applyFilter st) =
  List.filter (matches (Js.toLowerCase (Js.trim (searchValue st))) (activeGroup st))
    (all st).
Proof.
  unfold applyFilter, activeGroup. simpl.
  by destruct (searchValue st).
Qed.

(** C5, as stated, fails: with the query [" jazz"] the entry Jazz FM is
    visible, although the query as typed does not occur in its text. *)
Lemma visible_raw_query_counterexample :
  searchValue typedJazz = " jazz" ∧ activeGroup typedJazz = "All" ∧
  jazzFM ∈ filtered typedJazz ∧
  ¬ visible (searchValue typedJazz) (activeGroup typedJazz) jazzFM ∧
  ¬ (∀ c, c ∈ filtered typedJazz ↔
          c ∈ all typedJazz ∧
          visible (searchValue typedJazz) (activeGroup typedJazz) c).
Proof.
  assert (jazzFM ∈ filtered typedJazz) as Hin by (vm_compute; left).
  assert (¬ visible (searchValue typedJazz) (activeGroup typedJazz) jazzFM) as Hnot.
  { rewrite <- matches_visible. vm_compute. congruence. }
  split_and!; [done..|].
  intros Hclaim. apply Hnot. by apply Hclaim.
Qed.

(** C5, amended: the visible channels are exactly the entries of the catalog,
    in catalog order, such that the active group is "All" or equals the
    entry's group up to case, and the query, trimmed of surrounding white
    space, is empty or occurs up to case in name, space, group (whatever
    procedure decides that predicate).  On Example 1
    with group "All", the query "jazz" shows Jazz FM only, "news" shows ACME
    News only, and "zzz" shows nothing. *)
Theorem applyFilter_visible `{!∀ query g c, Decision (visible query g c)} st :
  filtered (applyFilter st) =
    filter (visible (Js.trim (searchValue st)) (activeGroup st)) (all st) ∧
  activeGroup loaded1 = "All" ∧
  filtered (searchKeypress "jazz" loaded1) = [jazzFM] ∧
  filtered (searchKeypress "news" loaded1) = [acmeNews] ∧
  filtered (searchKeypress "zzz" loaded1) = [].
Proof.
  split_and!; [|vm_compute; reflexivity..].
  rewrite filtered_applyFilter. apply filter_matches_visible.
Qed.

(** The predicate of the spec is decidable. *)
Global Instance visible_dec query g c : Decision (visible query g c).
Proof.
  destruct (matches (Js.toLowerCase query) g c) eqn:E.
  - left. by apply matches_visible.
  - right. rewrite <- matches_visible. by rewrite E.
Defined.

(** ** An index outside of the group list *)

Lemma at_index_outOfBounds {A : Type} (arr : list A) i :
  outOfBounds arr i ↔ at_index arr i = None.
Proof.
  destruct i as [|z]; simpl; [done|]. destruct (decide (0 ≤ z)).
  - rewrite lookup_ge_None. lia.
  - split; [done|]. intros _. lia.
Qed.

Lemma filter_visible_blank (l : list Channel) : filter (visible "" "All") l = l.
Proof.
  induction l as [|c l IH]; [done|].
  rewrite filter_cons_True by (split; by left). by rewrite IH.
Qed.

(** C10: when [groupIdx] is not an index of [groups], [applyFilter] filters
    by the group "All": the visible channels are the entries that match the
    query, all of the catalog when the query is blank. *)
Theorem applyFilter_index_out_of_bounds st :
  outOfBounds (groups st) (groupIdx st) →
  activeGroup st = "All" ∧
  filtered (applyFilter st) =
    filter (visible (Js.trim (searchValue st)) "All") (all st) ∧
  (∀ c, c ∈ filtered (applyFilter st) ↔
        c ∈ all st ∧ queryMatches (Js.trim (searchValue st)) c) ∧
  (Js.trim (searchValue st) = "" → filtered (applyFilter st) = all st).
Proof.
  intros Hout%at_index_outOfBounds.
  assert (activeGroup st = "All") as Hg by (unfold activeGroup; by rewrite Hout).
  assert (filtered (applyFilter st) =
          filter (visible (Js.trim (searchValue st)) "All") (all st)) as Hf.
  { rewrite filtered_applyFilter, Hg. apply filter_matches_visible. }
  split_and!; [done|done|..].
  - intros c. rewrite Hf, list_elem_of_filter. unfold visible. split.
    + by intros [[_ Hq] Hc].
    + intros [Hc Hq]. split; [split; [by left|done]|done].
  - intros Hq. rewrite Hf, Hq. apply filter_visible_blank.
Qed.

Lemma applyFilter_index_out_of_bounds_witness :
  activeGroup staleIndex = "All" ∧ filtered (applyFilter staleIndex) = [acmeNews].
Proof.
  destruct (applyFilter_index_out_of_bounds staleIndex) as (Hg & Hf & _).
  - right. vm_compute. discriminate.
  - split; [exact Hg|]. vm_compute. reflexivity.
Defined.

(** ** Cycling through the groups *)

Lemma groups_applyFilter st : groups (applyFilter st) = groups st.
Proof. reflexivity. Qed.

Lemma groupIdx_applyFilter st : groupIdx (applyFilter st) = groupIdx st.
Proof. reflexivity. Qed.

Lemma groups_keyTab st : groups (keyTab st) = groups st.
Proof. reflexivity. Qed.

Lemma groupIdx_keyTab st :
  groupIdx (keyTab st) =
  remainder (plus (groupIdx st) 1) (Z.of_nat (length (groups st))).
Proof. reflexivity. Qed.

Lemma groupIdx_keyShiftTab st :
  groupIdx (keyShiftTab st) =
  remainder (plus (plus (groupIdx st) (-1)) (Z.of_nat (length (groups st))))
    (Z.of_nat (length (groups st))).
Proof. reflexivity. Qed.

Lemma remainder_nonneg z n :
  0 ≤ z → 0 < n → remainder (Int z) n = Int (z mod n).
Proof.
  intros Hz Hn. unfold remainder. destruct (decide (n = 0)); [lia|].
  by rewrite Z.rem_mod_nonneg by lia.
Qed.

Lemma keyTab_iter st i k :
  groupIdx st = Int i → 0 ≤ i → groups st ≠ [] →
  groups (Nat.iter (S k) keyTab st) = groups st ∧
  groupIdx (Nat.iter (S k) keyTab st) =
    Int ((i + Z.of_nat (S k)) mod Z.of_nat (length (groups st))).
Proof.
  intros Hi Hpos Hne.
  assert (0 < Z.of_nat (length (groups st))) as Hn
    by (destruct (groups st); simpl; [done|lia]).
  induction k as [|k [IHg IHi]].
  - split; [done|]. rewrite Nat.iter_succ, groupIdx_keyTab. simpl Nat.iter.
    rewrite Hi. unfold plus. by rewrite remainder_nonneg by lia.
  - rewrite Nat.iter_succ, groups_keyTab, groupIdx_keyTab, IHg, IHi.
    split; [done|]. unfold plus.
    rewrite remainder_nonneg;
      [|apply Z.add_nonneg_nonneg; [apply Z.mod_pos_bound|]; lia|lia].
    f_equal. rewrite Zplus_mod_idemp_l. f_equal. lia.
Qed.

(** The group index is never negative: it is [NaN] or a natural number, in
    the initial state and after every handler. *)
Lemma remainder_naturalOrNaN x n :
  naturalOrNaN x → 0 ≤ n → naturalOrNaN (remainder x n).
Proof.
  destruct x as [|z]; [done|]. simpl. intros Hz Hn.
  destruct (decide (n = 0)); [done|]. simpl. apply Z.rem_nonneg; lia.
Qed.

Lemma naturalOrNaN_initial : naturalOrNaN (groupIdx initial).
Proof. done. Qed.

Lemma naturalOrNaN_keyTab st :
  naturalOrNaN (groupIdx st) → naturalOrNaN (groupIdx (keyTab st)).
Proof.
  intros Hst. rewrite groupIdx_keyTab. apply remainder_naturalOrNaN; [|lia].
  destruct (groupIdx st) as [|z]; simpl in *; lia.
Qed.

Lemma naturalOrNaN_keyShiftTab st :
  naturalOrNaN (groupIdx st) → naturalOrNaN (groupIdx (keyShiftTab st)).
Proof.
  intros Hst. rewrite groupIdx_keyShiftTab.
  destruct (groupIdx st) as [|z]; [done|]. simpl in Hst. unfold plus, remainder.
  destruct (decide (Z.of_nat (length (groups st)) = 0)); [done|]. simpl.
  apply Z.rem_nonneg; lia.
Qed.

Lemma groupIdx_loadPlaylistResume `{Collator} r st :
  groupIdx (loadPlaylistResume r st) = groupIdx st.
Proof.
  destruct r as [text|message]; [|done]. unfold loadPlaylistResume.
  by destruct (decide _).
Qed.

Lemma groupIdx_searchKeypress v st : groupIdx (searchKeypress v st) = groupIdx st.
Proof. reflexivity. Qed.

(** Before the first load the group list is empty, and [tab] makes the index
    [NaN]: the step equations need a list that is not empty. *)
Example keyTab_initial : groupIdx (keyTab initial) = NaN.
Proof. reflexivity. Qed.

(** C9, as stated, fails: after a reload that made the group list shorter
    the index 2 lies past the end of the list "All", "News"; two [tab]s from
    it lead to 0, not back to 2. *)
Lemma group_cycling_counterexample :
  groupIdx staleIndex = Int 2 ∧
  groups staleIndex = ["All"; "News"] ∧
  groupIdx (Nat.iter (length (groups staleIndex)) keyTab staleIndex) = Int 0 ∧
  ¬ cyclesBack staleIndex.
Proof.
  split_and!; [vm_compute; reflexivity..|].
  unfold cyclesBack. vm_compute. discriminate.
Qed.

(** C9, amended: on a non-empty group list of length [n] and for an index [i]
    that is a non-negative integer, [tab] sets the index to [(i + 1) mod n]
    and [S-tab] sets it to [(i - 1 + n) mod n]; so [n] times [tab] lead to
    [i mod n], which is the index they started from exactly when that index
    is one of the list ([0 ≤ i < n]); and [S-tab] from 0 on a list of length
    3 leads to 2. *)
Theorem group_cycling_modular :
  (∀ st i, groupIdx st = Int i → 0 ≤ i → groups st ≠ [] →
     groupIdx (keyTab st) = Int ((i + 1) mod Z.of_nat (length (groups st))) ∧
     groupIdx (keyShiftTab st) =
       Int ((i - 1 + Z.of_nat (length (groups st))) mod Z.of_nat (length (groups st)))) ∧
  (∀ st i, groupIdx st = Int i → 0 ≤ i → groups st ≠ [] →
     groupIdx (Nat.iter (length (groups st)) keyTab st) =
       Int (i mod Z.of_nat (length (groups st)))) ∧
  (∀ st i, groupIdx st = Int i → 0 ≤ i < Z.of_nat (length (groups st)) →
     groupIdx (Nat.iter (length (groups st)) keyTab st) = Int i) ∧
  (∀ st i, groupIdx st = Int i → Z.of_nat (length (groups st)) ≤ i →
     groups st ≠ [] → ¬ cyclesBack st) ∧
  (∀ st, length (groups st) = 3%nat → groupIdx st = Int 0 →
     groupIdx (keyShiftTab st) = Int 2).
Proof.
  assert (∀ st i, groupIdx st = Int i → 0 ≤ i → groups st ≠ [] →
            groupIdx (Nat.iter (length (groups st)) keyTab st) =
              Int (i mod Z.of_nat (length (groups st)))) as Hcycle.
  { intros st i Hi Hpos Hne.
    destruct (length (groups st)) as [|k] eqn:Hlen;
      [by destruct (groups st)|].
    destruct (keyTab_iter st i k Hi Hpos Hne) as [_ ->]. rewrite Hlen. f_equal.
    rewrite Z.add_mod, Z_mod_same_full, Z.add_0_r, Z.mod_mod by lia. done. }
  split_and!.
  - intros st i Hi Hpos Hne.
    assert (0 < Z.of_nat (length (groups st))) as Hn
      by (destruct (groups st); simpl; [done|lia]).
    rewrite groupIdx_keyTab, groupIdx_keyShiftTab, Hi. unfold plus.
    rewrite !remainder_nonneg by lia. split; f_equal; f_equal; lia.
  - exact Hcycle.
  - intros st i Hi [Hpos Hlt].
    assert (groups st ≠ []) as Hne by (destruct (groups st); simpl in *; [lia|done]).
    rewrite (Hcycle st i Hi Hpos Hne). f_equal. by apply Z.mod_small.
  - intros st i Hi Hlarge Hne. unfold cyclesBack.
    assert (0 < Z.of_nat (length (groups st))) as Hn
      by (destruct (groups st); simpl; [done|lia]).
    rewrite (Hcycle st i Hi) by (done || lia). rewrite Hi. intros [= Heq].
    pose proof (Z.mod_pos_bound i (Z.of_nat (length (groups st))) Hn). lia.
  - intros st Hlen Hi. rewrite groupIdx_keyShiftTab, Hi, Hlen. reflexivity.
Qed.

Lemma group_cycling_modular_witness :
  groupIdx (keyTab loaded1) = Int 1 ∧
  groupIdx (Nat.iter 2 keyTab staleIndex) = Int 0 ∧
  groupIdx (Nat.iter 2 keyTab (keyTab loaded1)) = Int 1 ∧
  ¬ cyclesBack staleIndex ∧
  groupIdx (keyShiftTab loaded4) = Int 2.
Proof.
  destruct group_cycling_modular as (Hstep & Hmod & Hcycle & Hpast & Hback).
  split_and!.
  - apply (Hstep loaded1 0); [reflexivity|lia|discriminate].
  - apply (Hmod staleIndex 2); [reflexivity|lia|discriminate].
  - apply (Hcycle (keyTab loaded1) 1); [reflexivity|vm_compute; split; congruence].
  - apply (Hpast staleIndex 2); [reflexivity|vm_compute; congruence|discriminate].
  - apply Hback; reflexivity.
Defined.

(** ** The group list *)

Lemma setAdd_elem x set y : y ∈ setAdd x set ↔ y = x ∨ y ∈ set.
Proof.
  unfold setAdd. destruct (decide (x ∈ set)) as [Hin|Hnot].
  - split; [by right|]. by intros [->|?].
  - rewrite elem_of_app, list_elem_of_singleton. tauto.
Qed.

Lemma setAdd_NoDup x set : NoDup set → NoDup (setAdd x set).
Proof.
  intros Hset. unfold setAdd. destruct (decide (x ∈ set)) as [Hin|Hnot]; [done|].
  apply NoDup_app. split_and!; [done| |apply NoDup_singleton].
  intros y Hy ->%list_elem_of_singleton. done.
Qed.

Lemma foldl_addGroup_elem channels set g :
  g ∈ foldl addGroup set channels ↔
  g ∈ set ∨ (g ≠ "" ∧ ∃ c, c ∈ channels ∧ group c = Some g).
Proof.
  revert set. induction channels as [|c channels IH]; intros set; simpl.
  - split; [by left|]. intros [?|(_ & c & Hc & _)]; [done|].
    by apply elem_of_nil in Hc.
  - rewrite IH. unfold addGroup. destruct (group c) as [[|a s]|] eqn:Hg.
    + split; (intros [?|(Hne & c' & Hc' & Hg')]; [by left|right]);
        (split; [done|]); exists c'.
      * split; [by right|done].
      * apply elem_of_cons in Hc' as [->|?]; [congruence|done].
    + rewrite setAdd_elem. split.
      * intros [[->|?]|(Hne & c' & Hc' & Hg')].
        -- right. split; [done|]. exists c. split; [by left|done].
        -- by left.
        -- right. split; [done|]. exists c'. split; [by right|done].
      * intros [?|(Hne & c' & Hc' & Hg')]; [left; by right|].
        apply elem_of_cons in Hc' as [->|?].
        -- left. left. congruence.
        -- right. split; [done|]. by exists c'.
    + split; (intros [?|(Hne & c' & Hc' & Hg')]; [by left|right]);
        (split; [done|]); exists c'.
      * split; [by right|done].
      * apply elem_of_cons in Hc' as [->|?]; [congruence|done].
Qed.

Lemma foldl_addGroup_NoDup channels set :
  NoDup set → NoDup (foldl addGroup set channels).
Proof.
  revert set. induction channels as [|c channels IH]; intros set Hset; [done|].
  simpl. apply IH. unfold addGroup. destruct (group c) as [[|a s]|]; [done| |done].
  by apply setAdd_NoDup.
Qed.

Lemma groupSet_elem channels g :
  g ∈ groupSet channels ↔ g ≠ "" ∧ ∃ c, c ∈ channels ∧ group c = Some g.
Proof.
  unfold groupSet. rewrite foldl_addGroup_elem. split; [|by right].
  intros [Hnil|?]; [|done]. by apply elem_of_nil in Hnil.
Qed.

Lemma groupSet_NoDup channels : NoDup (groupSet channels).
Proof. apply foldl_addGroup_NoDup, NoDup_nil_2. Qed.

Section Sorting.
Context `{Collator}.

Lemma insertSorted_Permutation x l :
  insertSorted (λ a b, localeCompare a b) x l ≡ₚ x :: l.
Proof.
  induction l as [|y l IH]; simpl; [done|].
  destruct (decide (localeCompare x y ≤ 0)); [done|].
  rewrite IH. apply perm_swap.
Qed.

Lemma sort_Permutation l : sort (λ a b, localeCompare a b) l ≡ₚ l.
Proof.
  induction l as [|x l IH]; simpl; [done|].
  by rewrite insertSorted_Permutation, IH.
Qed.

Lemma insertSorted_StronglySorted x l :
  StronglySorted notAfter l →
  StronglySorted notAfter (insertSorted (λ a b, localeCompare a b) x l).
Proof.
  induction 1 as [|y l Hl IH Hy]; simpl.
  - by repeat constructor.
  - destruct (decide (localeCompare x y ≤ 0)) as [Hle|Hgt].
    + constructor; [by constructor|]. constructor; [done|].
      eapply Forall_impl; [exact Hy|]. intros z Hz.
      by apply (localeCompare_trans x y z).
    + constructor; [done|].
      rewrite insertSorted_Permutation. constructor; [|done].
      destruct (localeCompare_total x y); [lia|done].
Qed.

Lemma sort_StronglySorted l :
  StronglySorted notAfter (sort (λ a b, localeCompare a b) l).
Proof.
  induction l as [|x l IH]; simpl; [constructor|].
  by apply insertSorted_StronglySorted.
Qed.

End Sorting.

(** ** Loading and reloading *)

Section Loading.
Context `{Collator}.

Lemma loadPlaylist_success text st :
  parseM3U text ≠ [] →
  loadPlaylist (Text text) st =
  applyFilter
    (status (Loaded (Z.of_nat (length (parseM3U text)))
                    (Z.of_nat (length (groups (computeGroups
                       (setAll (parseM3U text) (status Downloading st))))) - 1))
       (computeGroups (setAll (parseM3U text) (status Downloading st)))).
Proof.
  intros Hne. unfold loadPlaylist, loadPlaylistResume.
  destruct (decide (length (all (setAll (parseM3U text) (status Downloading st))) = 0%nat))
    as [Hlen|Hlen]; [|done].
  simpl in Hlen. by apply nil_length_inv in Hlen.
Qed.

Lemma all_loadPlaylist text st :
  parseM3U text ≠ [] → all (loadPlaylist (Text text) st) = parseM3U text.
Proof. intros Hne. by rewrite loadPlaylist_success. Qed.

Lemma groups_loadPlaylist text st :
  parseM3U text ≠ [] →
  groups (loadPlaylist (Text text) st) =
  "All" :: sort (λ a b, localeCompare a b) (groupSet (parseM3U text)).
Proof. intros Hne. by rewrite loadPlaylist_success. Qed.

Lemma parseM3U_group_not_empty text c : c ∈ parseM3U text → group c ≠ Some "".
Proof.
  intros (l & u & _ & _ & _ & _ & _ & ->)%parseM3U_shape. apply or_None_not_empty.
Qed.

(** A failed fetch changes nothing but the footer. *)
Lemma loadPlaylist_fetch_failure message st :
  loadPlaylist (Thrown message) st = status (Failure message) st.
Proof. reflexivity. Qed.

End Loading.

(** C6: after a load that found channels, the group list is "All" followed
    by the group labels of the loaded channels, each once, in ascending
    order of [localeCompare]. *)
Theorem loadPlaylist_groups `{Collator} text st :
  parseM3U text ≠ [] →
  ∃ rest,
    groups (loadPlaylist (Text text) st) = "All" :: rest ∧
    (∀ g, g ∈ rest ↔ ∃ c, c ∈ all (loadPlaylist (Text text) st) ∧ group c = Some g) ∧
    NoDup rest ∧
    StronglySorted notAfter rest.
Proof.
  intros Hne. exists (sort (λ a b, localeCompare a b) (groupSet (parseM3U text))).
  rewrite groups_loadPlaylist, all_loadPlaylist by done. split_and!.
  - done.
  - intros g. rewrite sort_Permutation, groupSet_elem. split.
    + by intros [_ ?].
    + intros (c & Hc & Hg). split; [|by exists c].
      intros ->. by apply parseM3U_group_not_empty in Hc.
  - rewrite sort_Permutation. apply groupSet_NoDup.
  - apply sort_StronglySorted.
Qed.

Lemma loadPlaylist_groups_witness :
  ∃ rest, groups loaded4 = "All" :: rest ∧
    (∀ g, g ∈ rest ↔ ∃ c, c ∈ all loaded4 ∧ group c = Some g) ∧
    NoDup rest ∧
    StronglySorted (@notAfter codeUnitCollator) rest.
Proof.
  apply (@loadPlaylist_groups codeUnitCollator example4 (status Initialising initial)).
  vm_compute. discriminate.
Defined.

(** C1, as stated, fails: reloading Example 1, whose group list still holds
    "News", leaves the index at 2, where the new list has no label, and
    leaves the query as typed. *)
Lemma reload_counterexample :
  activeLabel browsingNews = Some "News" ∧
  "News" ∈ groups (@loadPlaylist codeUnitCollator (Text example1) browsingNews) ∧
  activeLabel (@loadPlaylist codeUnitCollator (Text example1) browsingNews) = None ∧
  searchValue (@loadPlaylist codeUnitCollator (Text example1) browsingNews) = "acme" ∧
  ¬ keepsLabelAndResetsQuery browsingNews
      (@loadPlaylist codeUnitCollator (Text example1) browsingNews).
Proof.
  split_and!; [done|vm_compute; right; left|done|done|].
  intros (_ & Hquery & _). vm_compute in Hquery. discriminate.
Qed.

(** C1, amended: a reload that finds channels leaves the group index and the
    text of the search box as they were.  The active group is the label at
    the old index in the new group list, or "All" when the new list has no
    such index; the visible channels are recomputed for that group and the
    unchanged query, and the selection is reset to row 0, which holds no
    entry when nothing is visible. *)
Theorem loadPlaylist_keeps_index_and_query `{Collator} text st :
  parseM3U text ≠ [] →
  groupIdx (loadPlaylist (Text text) st) = groupIdx st ∧
  searchValue (loadPlaylist (Text text) st) = searchValue st ∧
  activeGroup (loadPlaylist (Text text) st) =
    default "All" (at_index (groups (loadPlaylist (Text text) st)) (groupIdx st)) ∧
  filtered (loadPlaylist (Text text) st) =
    filter (visible (Js.trim (searchValue st))
                    (activeGroup (loadPlaylist (Text text) st)))
           (parseM3U text) ∧
  listSelected (loadPlaylist (Text text) st) = 0 ∧
  at_index (filtered (loadPlaylist (Text text) st))
           (Int (listSelected (loadPlaylist (Text text) st)))
    = head (filtered (loadPlaylist (Text text) st)).
Proof.
  intros Hne. rewrite loadPlaylist_success by done.
  set (st1 := status _ _).
  assert (groupIdx (applyFilter st1) = groupIdx st) as Hidx by done.
  assert (searchValue (applyFilter st1) = searchValue st) as Hq by done.
  split_and!; [done|done| | |done|].
  - unfold activeGroup. rewrite Hidx.
    destruct (at_index (groups (applyFilter st1)) (groupIdx st)) as [g|] eqn:Hg; [|done].
    destruct g as [|a g]; [|done]. exfalso.
    destruct (groupIdx st) as [|z]; [done|]. simpl in Hg.
    destruct (decide (0 ≤ z)); [|done].
    destruct (Z.to_nat z) as [|n]; [done|]. simpl in Hg.
    apply list_elem_of_lookup_2 in Hg.
    rewrite sort_Permutation in Hg. by apply groupSet_elem in Hg as [? _].
  - rewrite filtered_applyFilter.
    change (activeGroup st1) with (activeGroup (applyFilter st1)).
    change (searchValue st1) with (searchValue st).
    change (all st1) with (parseM3U text).
    apply filter_matches_visible.
  - by destruct (filtered (applyFilter st1)).
Qed.

Lemma loadPlaylist_keeps_index_and_query_witness :
  groupIdx (@loadPlaylist codeUnitCollator (Text example1) browsingNews) = Int 2 ∧
  searchValue (@loadPlaylist codeUnitCollator (Text example1) browsingNews) = "acme".
Proof.
  destruct (@loadPlaylist_keeps_index_and_query codeUnitCollator example1 browsingNews)
    as (Hidx & Hq & _).
  - vm_compute. discriminate.
  - split; [exact Hidx|exact Hq].
Defined.

(** C2: a reload whose text holds no channel replaces the catalog by the
    empty one before it gives up.  The footer shows the error and the list
    still shows the old entries, but the catalog behind them is gone: the
    next recomputation of the view empties it. *)
Theorem reload_without_channels_empties_catalog :
  parseM3U "#EXTM3U" = [] ∧
  all loaded1 = [acmeNews; jazzFM] ∧
  all (@loadPlaylist codeUnitCollator (Text "#EXTM3U") loaded1) = [] ∧
  filtered (@loadPlaylist codeUnitCollator (Text "#EXTM3U") loaded1)
    = [acmeNews; jazzFM] ∧
  footer (@loadPlaylist codeUnitCollator (Text "#EXTM3U") loaded1)
    = Failure "No channels found in playlist." ∧
  filtered (searchKeypress ""
              (@loadPlaylist codeUnitCollator (Text "#EXTM3U") loaded1)) = [].
Proof. split_and!; vm_compute; reflexivity. Qed.

(** * The rest of the program *)

(** ** Truncation *)

Lemma length_string_app a b :
  String.length (a +:+ b) = (String.length a + String.length b)%nat.
Proof.
  induction a as [|c a IH]; [done|]. rewrite string_app_cons. simpl. by rewrite IH.
Qed.

Lemma length_takeChars n s :
  String.length (takeChars n s) = Nat.min n (String.length s).
Proof.
  revert s. induction n as [|n IH]; intros [|c s]; simpl; [done..|]. by rewrite IH.
Qed.

Lemma takeChars_all n s : (String.length s ≤ n)%nat → takeChars n s = s.
Proof.
  revert s. induction n as [|n IH]; intros [|c s]; simpl; intros Hlen;
    [done|lia|done|]. rewrite IH; [done|lia].
Qed.

Lemma length_sliceTo s e :
  0 ≤ e →
  Z.of_nat (String.length (sliceTo s e)) = Z.min e (Z.of_nat (String.length s)).
Proof.
  intros He. unfold sliceTo. destruct (decide (e < 0)); [lia|].
  rewrite length_takeChars. lia.
Qed.

Lemma length_truncate ellipsis s n :
  1 ≤ n →
  Z.of_nat (String.length (truncate ellipsis s n)) =
  Z.min (Z.of_nat (String.length s)) n.
Proof.
  intros Hn. unfold truncate.
  destruct (decide (Z.of_nat (String.length s) ≤ n)); [lia|].
  rewrite length_string_app, Nat2Z.inj_add, length_sliceTo by lia. simpl. lia.
Qed.

(** X1: for a limit of at least 1, the truncated text has the length of the
    text or the limit, whichever is smaller: it never exceeds the limit. *)
Theorem truncate_length ellipsis s n :
  1 ≤ n →
  Z.of_nat (String.length (truncate ellipsis s n)) =
  Z.min (Z.of_nat (String.length s)) n.
Proof. apply length_truncate. Qed.

Lemma truncate_length_witness :
  Z.of_nat (String.length (truncate "~" "http://example.org/streams/channel-one/index.m3u8" 28))
  = Z.min 49 28.
Proof. apply (truncate_length "~"%char). lia. Defined.

(** X2: truncating twice with the same limit (at least 1) is truncating
    once. *)
Theorem truncate_idempotent ellipsis s n :
  1 ≤ n →
  truncate ellipsis (truncate ellipsis s n) n = truncate ellipsis s n.
Proof.
  intros Hn. unfold truncate at 1.
  destruct (decide (Z.of_nat (String.length (truncate ellipsis s n)) ≤ n))
    as [|Hlong]; [done|].
  rewrite length_truncate in Hlong by done. lia.
Qed.

Lemma truncate_idempotent_witness :
  truncate "~" (truncate "~" "ACME News International" 8) 8 = "ACME Ne~".
Proof. rewrite (truncate_idempotent "~"%char) by lia. reflexivity. Defined.

(** With the limit 0 the cut removes one character and the ellipsis puts one
    back: the result is as long as the text. *)
Example truncate_zero : truncate "~" "ab" 0 = "a~".
Proof. reflexivity. Qed.

(** ** The command line *)

Lemma indexOf_absent x args : x ∉ args → indexOf x args = -1.
Proof.
  induction args as [|a args IH]; [done|]. intros Hx. simpl.
  apply not_elem_of_cons in Hx as [Hne Hx].
  destruct (decide (a = x)); [congruence|]. rewrite IH by done. done.
Qed.

Lemma indexOf_first x pre post :
  x ∉ pre → indexOf x (pre ++ x :: post) = Z.of_nat (length pre).
Proof.
  induction pre as [|a pre IH]; intros Hx; simpl.
  - by destruct (decide (x = x)).
  - apply not_elem_of_cons in Hx as [Hne Hx].
    destruct (decide (a = x)); [congruence|]. rewrite IH by done.
    destruct (decide (Z.of_nat (length pre) = -1)); lia.
Qed.

Lemma at_index_after {A : Type} (pre : list A) x post :
  at_index (pre ++ x :: post) (Int (Z.of_nat (length pre) + 1)) = head post.
Proof.
  unfold at_index. destruct (decide (0 ≤ Z.of_nat (length pre) + 1)); [|lia].
  replace (Z.to_nat (Z.of_nat (length pre) + 1)) with (length pre + 1)%nat by lia.
  rewrite lookup_app_r by lia.
  replace (length pre + 1 - length pre)%nat with 1%nat by lia.
  by destruct post.
Qed.

Lemma mpvCommand_first pre rest :
  "--mpv" ∉ pre →
  mpvCommand (pre ++ "--mpv" :: rest) =
  match rest with
  | String c x :: _ => String c x
  | _ => "mpv"
  end.
Proof.
  intros Hpre. unfold mpvCommand. rewrite indexOf_first, at_index_after by done.
  rewrite bool_decide_eq_true_2 by lia. by destruct rest as [|[|c x] rest].
Qed.

(** X3: the player command is never the empty string.  It is the argument
    after the first [--mpv] when there is one and it is not empty, and [mpv]
    otherwise: without the flag, with the flag last, or with an empty
    argument after it. *)
Theorem mpvCommand_spec :
  (∀ args, mpvCommand args ≠ "") ∧
  (∀ args, "--mpv" ∉ args → mpvCommand args = "mpv") ∧
  (∀ pre x post, "--mpv" ∉ pre → x ≠ "" →
     mpvCommand (pre ++ "--mpv" :: x :: post) = x) ∧
  (∀ pre post, "--mpv" ∉ pre → mpvCommand (pre ++ "--mpv" :: "" :: post) = "mpv") ∧
  (∀ pre, "--mpv" ∉ pre → mpvCommand (pre ++ ["--mpv"]) = "mpv").
Proof.
  split_and!.
  - intros args. unfold mpvCommand.
    destruct (bool_decide _ && Js.truthy _) eqn:E; [|done].
    apply andb_true_iff in E as [_ E].
    by destruct (at_index args _) as [[|c x]|].
  - intros args Hargs. unfold mpvCommand. rewrite indexOf_absent by done.
    by rewrite bool_decide_eq_false_2 by lia.
  - intros pre x post Hpre Hx. rewrite mpvCommand_first by done. by destruct x.
  - intros pre post Hpre. by rewrite mpvCommand_first.
  - intros pre Hpre. by rewrite mpvCommand_first.
Qed.

Lemma mpvCommand_spec_witness :
  mpvCommand ["--stay"] = "mpv" ∧
  mpvCommand ["--stay"; "--mpv"; "vlc"; "--mpv"; "mplayer"] = "vlc" ∧
  mpvCommand ["--mpv"; ""; "vlc"] = "mpv" ∧
  mpvCommand ["--stay"; "--mpv"] = "mpv".
Proof.
  destruct mpvCommand_spec as (_ & Habsent & Hfirst & Hempty & Hlast). split_and!.
  - apply Habsent. apply not_elem_of_cons. split; [done|apply not_elem_of_nil].
  - apply (Hfirst ["--stay"] "vlc" ["--mpv"; "mplayer"]); [|done].
    apply not_elem_of_cons. split; [done|apply not_elem_of_nil].
  - apply (Hempty [] ["vlc"]). apply not_elem_of_nil.
  - apply (Hlast ["--stay"]). apply not_elem_of_cons. split; [done|apply not_elem_of_nil].
Defined.

(** ** More on the parser *)

Lemma parseFrom_findUrl_length lines :
  (2 * length (parseFrom lines) ≤ length lines)%nat ∧
  ∀ n a, (2 * length (findUrl n a lines) ≤ length lines + 1)%nat.
Proof.
  induction lines as [|l rest [IHp IHf]]; [simpl; split; [lia|intros; lia]|].
  split.
  - rewrite parseFrom_cons. destruct (_ || _); simpl length.
    + lia.
    + specialize (IHf (channelName (Js.trim l)) (extractAttrs (Js.trim l))). lia.
  - intros n a. rewrite findUrl_cons. destruct (_ && _); simpl length.
    + lia.
    + specialize (IHf n a). lia.
Qed.

(** X4: a record takes at least two lines, a marker and a locator: a text
    has at most half as many records as lines. *)
Theorem parseM3U_length text :
  (2 * length (parseM3U text) ≤ length (Js.splitLines text))%nat.
Proof. apply parseFrom_findUrl_length. Qed.

Lemma findUrl_skip n a skipped rest :
  Forall noLocator skipped → findUrl n a (skipped ++ rest) = findUrl n a rest.
Proof.
  induction 1 as [|x skipped Hx _ IH]; [done|].
  rewrite <- app_comm_cons, findUrl_cons. by rewrite noLocator_test.
Qed.

(** X5: the lines between a marker and its locator are skipped, whatever they
    hold.  Another marker among them is skipped as a comment: it gives no
    record, and the locator goes to the first marker. *)
Theorem parseFrom_marker_run marker skipped locator rest :
  Js.startsWith "#EXTINF" (Js.trim marker) = true →
  Forall noLocator skipped →
  ¬ noLocator locator →
  parseFrom (marker :: skipped ++ locator :: rest) =
  channelOf (channelName (Js.trim marker)) (Js.trim locator)
            (extractAttrs (Js.trim marker)) :: parseFrom rest.
Proof.
  intros Hmarker Hskipped Hlocator. rewrite parseFrom_cons, Hmarker.
  assert (Js.truthy (Some (Js.trim marker)) = true) as ->.
  { apply truthy_Some. intros Heq. by rewrite Heq in Hmarker. }
  simpl negb. simpl orb. rewrite findUrl_skip, findUrl_cons by done.
  destruct (Js.truthy (Some (Js.trim locator)) &&
            negb (Js.startsWith "#" (Js.trim locator))) eqn:E; [done|].
  exfalso. apply Hlocator. unfold noLocator.
  apply andb_false_iff in E as [E|E].
  - left. destruct (Js.trim locator); [done|discriminate].
  - right. by apply negb_false_iff.
Qed.

Lemma parseFrom_marker_run_witness :
  parseFrom ["#EXTINF:-1,First"; ""; "#EXTINF:-1,Second"; "# note"; " http://x/1 "]
  = [ {| name := "First"; url := "http://x/1"; group := None; logo := None;
         attrs := ∅ |} ].
Proof.
  etrans; [apply (parseFrom_marker_run "#EXTINF:-1,First"
                    [""; "#EXTINF:-1,Second"; "# note"] " http://x/1 " [])|].
  - reflexivity.
  - repeat constructor; (by left) || (by right).
  - intros [Hempty|Hhash]; vm_compute in *; discriminate.
  - vm_compute. reflexivity.
Defined.

(** *** White space *)

Lemma trimStart_cases s :
  Js.trimStart s = "" ∨
  ∃ c t, Js.trimStart s = String c t ∧ Js.isWhiteSpace c = false.
Proof.
  induction s as [|c s IH]; [by left|]. simpl.
  destruct (Js.isWhiteSpace c) eqn:Hc; [done|]. right. by exists c, s.
Qed.

Lemma trimStart_not_space c s :
  Js.isWhiteSpace c = false → Js.trimStart (String c s) = String c s.
Proof. simpl. by intros ->. Qed.

Lemma trimEnd_not_space c s :
  Js.isWhiteSpace c = false → ∃ t, Js.trimEnd (String c s) = String c t.
Proof.
  intros Hc. simpl. destruct (Js.trimEnd s) as [|d t].
  - rewrite Hc. by exists "".
  - by exists (String d t).
Qed.

Lemma trimEnd_idempotent s : Js.trimEnd (Js.trimEnd s) = Js.trimEnd s.
Proof.
  induction s as [|c s IH]; [done|]. simpl.
  destruct (Js.trimEnd s) as [|d t] eqn:E.
  - destruct (Js.isWhiteSpace c) eqn:Hc; [done|]. simpl. by rewrite Hc.
  - change (Js.trimEnd (String c (String d t)))
      with (match Js.trimEnd (String d t) with
            | "" => if Js.isWhiteSpace c then "" else String c ""
            | t' => String c t'
            end).
    by rewrite IH.
Qed.

Lemma trim_idempotent s : Js.trim (Js.trim s) = Js.trim s.
Proof.
  unfold Js.trim. destruct (trimStart_cases s) as [->|(c & t & -> & Hc)]; [done|].
  destruct (trimEnd_not_space c t Hc) as [t' Ht']. rewrite Ht'.
  rewrite trimStart_not_space by done. rewrite <- Ht'. apply trimEnd_idempotent.
Qed.

(** X6: the url of every record is free of surrounding white space and does
    not start with a hash sign; its name is free of surrounding white space;
    and its logo is the value of [tvg-logo] when that value is not empty, and
    absent otherwise. *)
Theorem parseM3U_fields text c :
  c ∈ parseM3U text →
  Js.trim (url c) = url c ∧
  Js.startsWith "#" (url c) = false ∧
  Js.trim (name c) = name c ∧
  logo c = nonEmptyValue (attrs c !! "tvg-logo").
Proof.
  intros (l & u & _ & _ & _ & _ & Hhash & ->)%parseM3U_shape. simpl.
  split_and!.
  - apply trim_idempotent.
  - done.
  - apply trim_idempotent.
  - apply or_None_cases.
Qed.

Lemma parseM3U_fields_witness :
  Js.trim (url jazzFM) = url jazzFM ∧
  Js.startsWith "#" (url jazzFM) = false ∧
  Js.trim (name jazzFM) = name jazzFM ∧
  logo jazzFM = nonEmptyValue (attrs jazzFM !! "tvg-logo").
Proof.
  apply (parseM3U_fields example1). rewrite parseM3U_example1. right. left.
Defined.

(** *** Line endings *)

Lemma parseFrom_findUrl_trim_ext ls ls' :
  Forall2 (λ l l', Js.trim l = Js.trim l') ls ls' →
  parseFrom ls = parseFrom ls' ∧ ∀ n a, findUrl n a ls = findUrl n a ls'.
Proof.
  induction 1 as [|l l' ls ls' Hl _ [IHp IHf]]; [done|]. split.
  - rewrite !parseFrom_cons, Hl, IHp. by rewrite IHf.
  - intros n a. by rewrite !findUrl_cons, Hl, IHp, IHf.
Qed.

(** [l'] is [l], or [l] followed by a carriage return. *)
Definition withCR (l l' : string) : Prop := l' = l ∨ l' = l +:+ String "013" "".

Lemma splitLines_not_nil s : Js.splitLines s ≠ [].
Proof.
  destruct s as [|c s]; simpl; [done|].
  destruct (decide (c = "010"%char)); [done|].
  destruct (decide (c = "013"%char)).
  - destruct s as [|d s]; [by destruct (Js.splitLines "")|].
    destruct (decide (d = "010"%char)) as [->|]; [done|].
    destruct (Js.splitLines (String d s));
      by ascii_cases d.
  - by destruct (Js.splitLines s).
Qed.

Lemma splitLines_lf s : Js.splitLines (String "010" s) = "" :: Js.splitLines s.
Proof. reflexivity. Qed.

Lemma splitLines_crlf s :
  Js.splitLines (String "013" (String "010" s)) = "" :: Js.splitLines s.
Proof. reflexivity. Qed.

(** A character that does not end a line joins the first line of the rest. *)
Lemma splitLines_char c s h t :
  c ≠ "010"%char →
  (c = "013"%char → ∀ r, s ≠ String "010" r) →
  Js.splitLines s = h :: t →
  Js.splitLines (String c s) = String c h :: t.
Proof.
  intros Hlf Hcr Hs. simpl. rewrite Hs.
  destruct (decide (c = "010"%char)); [done|].
  destruct (decide (c = "013"%char)) as [Hc|]; [|done].
  destruct s as [|d s]; [done|].
  destruct (decide (d = "010"%char)) as [->|]; [by destruct (Hcr Hc s)|].
  by ascii_cases d.
Qed.

Lemma withCRLF_not_lf s r : withCRLF s ≠ String "010" r.
Proof.
  destruct s as [|c s]; simpl; [done|].
  destruct (decide (c = "010"%char)); [done|]. congruence.
Qed.

Lemma splitLines_withCRLF_char c s :
  c ≠ "010"%char →
  (c = "013"%char → ∀ r, s ≠ String "010" r) →
  Forall2 withCR (Js.splitLines s) (Js.splitLines (withCRLF s)) →
  Forall2 withCR (Js.splitLines (String c s)) (Js.splitLines (withCRLF (String c s))).
Proof.
  intros Hlf Hcr IH.
  assert (withCRLF (String c s) = String c (withCRLF s)) as ->
    by (simpl; by destruct (decide (c = "010"%char))).
  destruct (Js.splitLines (withCRLF s)) as [|h' t'] eqn:Hs';
    [by apply splitLines_not_nil in Hs'|].
  destruct (Js.splitLines s) as [|h t] eqn:Hs;
    [by apply splitLines_not_nil in Hs|].
  rewrite (splitLines_char c (withCRLF s) h' t' Hlf) by
    (done || intros _ r; apply withCRLF_not_lf).
  rewrite (splitLines_char c s h t Hlf) by done.
  apply Forall2_cons_1 in IH as [[->| ->] IH];
    (constructor; [|done]); [by left|by right].
Qed.

Lemma splitLines_withCRLF s :
  Forall2 withCR (Js.splitLines s) (Js.splitLines (withCRLF s)).
Proof.
  induction s as [|c s IH]; [by repeat constructor; left|].
  destruct (decide (c = "010"%char)) as [->|Hlf].
  { simpl withCRLF. rewrite splitLines_lf, splitLines_crlf.
    constructor; [by left|done]. }
  destruct (decide (c = "013"%char)) as [->|Hcr];
    [|by apply splitLines_withCRLF_char].
  destruct s as [|d s]; [by apply splitLines_withCRLF_char|].
  destruct (decide (d = "010"%char)) as [->|Hd];
    [|apply splitLines_withCRLF_char; [done| |done]; intros _ r; congruence].
  simpl withCRLF in *. rewrite splitLines_lf, splitLines_crlf in IH.
  apply Forall2_cons_1 in IH as [_ IH].
  rewrite splitLines_crlf.
  destruct (Js.splitLines (withCRLF s)) as [|h' t'] eqn:Hs';
    [by apply splitLines_not_nil in Hs'|].
  rewrite (splitLines_char "013" (String "013" (String "010" (withCRLF s))) "" (h' :: t'));
    [|done|intros _ r; congruence|by rewrite splitLines_crlf, Hs'].
  constructor; [by right|done].
Qed.

Lemma trimEnd_cr s : Js.trimEnd (s +:+ String "013" "") = Js.trimEnd s.
Proof.
  induction s as [|c s IH]; [done|]. rewrite string_app_cons. simpl. by rewrite IH.
Qed.

Lemma trimStart_app_not_space s c t x :
  Js.trimStart s = String c t → Js.trimStart (s +:+ x) = String c t +:+ x.
Proof.
  induction s as [|d s IH]; [done|]. rewrite string_app_cons. simpl.
  destruct (Js.isWhiteSpace d); [done|]. intros [= -> ->]. done.
Qed.

Lemma trimStart_app_space s x :
  Js.trimStart s = "" → Js.trimStart (s +:+ x) = Js.trimStart x.
Proof.
  induction s as [|d s IH]; [done|]. rewrite string_app_cons. simpl.
  by destruct (Js.isWhiteSpace d).
Qed.

Lemma trim_cr s : Js.trim (s +:+ String "013" "") = Js.trim s.
Proof.
  unfold Js.trim. destruct (Js.trimStart s) as [|c t] eqn:E.
  - by rewrite (trimStart_app_space _ _ E).
  - rewrite (trimStart_app_not_space _ _ _ _ E). apply trimEnd_cr.
Qed.

(** X7: Windows line endings make no difference: the text with a carriage
    return before every line feed parses to the same records. *)
Theorem parseM3U_withCRLF text : parseM3U (withCRLF text) = parseM3U text.
Proof.
  unfold parseM3U. symmetry. apply parseFrom_findUrl_trim_ext.
  eapply Forall2_impl; [apply splitLines_withCRLF|].
  intros l l' [->| ->]; [done|]. by rewrite trim_cr.
Qed.

(** ** What every state of the program satisfies *)

Section Reachable.
Context `{Collator}.

Lemma Forall_wellFormed_filter p l :
  Forall wellFormed l → Forall wellFormed (List.filter p l).
Proof.
  induction 1 as [|c l Hc _ IH]; simpl; [done|].
  destruct (p c); [by constructor|done].
Qed.

Lemma parseM3U_wellFormed text : Forall wellFormed (parseM3U text).
Proof.
  apply Forall_forall. intros c Hc. split.
  - by apply parseM3U_shape in Hc as (l & u & _ & _ & _ & Hu & _ & ->).
  - by apply (parseM3U_group_not_empty text).
Qed.

Lemma groupListShape_computeGroups channels :
  groupListShape ("All" :: sort (λ a b, localeCompare a b) (groupSet channels)).
Proof.
  right. eexists. split_and!; [done| | |].
  - rewrite sort_Permutation. apply groupSet_NoDup.
  - apply sort_StronglySorted.
  - rewrite sort_Permutation, groupSet_elem. by intros [? _].
Qed.

Lemma consistent_applyFilter st :
  naturalOrNaN (groupIdx st) → Forall wellFormed (all st) →
  groupListShape (groups st) → consistent (applyFilter st).
Proof.
  intros Hidx Hall Hgroups. split_and!; [done|done|done| |done].
  rewrite filtered_applyFilter. by apply Forall_wellFormed_filter.
Qed.

Lemma consistent_initial : consistent initial.
Proof. split_and!; [done|done|done|done|by left]. Qed.

Lemma consistent_status msg st : consistent st → consistent (status msg st).
Proof. done. Qed.

Lemma consistent_handle e st : consistent st → consistent (handle e st).
Proof.
  intros (Hitems & Hidx & Hall & Hfiltered & Hgroups).
  destruct e as [| | |r|v|]; simpl.
  - apply (consistent_applyFilter
             {| all := _; filtered := _; groups := _; groupIdx := _;
                searchValue := _; listItems := _; listSelected := _;
                headerGroup := _; footer := _ |}); [|done..].
    by apply naturalOrNaN_keyTab.
  - apply (consistent_applyFilter
             {| all := _; filtered := _; groups := _; groupIdx := _;
                searchValue := _; listItems := _; listSelected := _;
                headerGroup := _; footer := _ |}); [|done..].
    by apply naturalOrNaN_keyShiftTab.
  - done.
  - destruct r as [text|message]; [|done]. unfold loadPlaylistResume.
    destruct (decide _) as [Hempty|Hne].
    + split_and!; [done|done|apply parseM3U_wellFormed|done|done].
    + apply consistent_applyFilter; simpl; [done| |].
      * apply parseM3U_wellFormed.
      * apply groupListShape_computeGroups.
  - by apply (consistent_applyFilter
                {| all := _; filtered := _; groups := _; groupIdx := _;
                   searchValue := _; listItems := _; listSelected := _;
                   headerGroup := _; footer := _ |}).
  - by apply consistent_applyFilter.
Qed.

Lemma consistent_run events st : consistent st → consistent (run events st).
Proof.
  revert st. induction events as [|e events IH]; intros st Hst; [done|].
  simpl. by apply IH, consistent_handle.
Qed.

End Reachable.

Lemma consistent_booting `{Collator} events : consistent (run events booting).
Proof. apply consistent_run, consistent_status, consistent_initial. Qed.

(** X8: whatever the events, the rows of the list are the visible channels,
    formatted, in the same order. *)
Theorem run_listItems `{Collator} events :
  listItems (run events booting) = fmtItem <$> filtered (run events booting).
Proof. apply consistent_booting. Qed.

(** X9: whatever the events (failed reloads included), the group list is
    empty, as before the first load, or it is "All" followed by distinct,
    non-empty labels in ascending order. *)
Theorem run_groupListShape `{Collator} events :
  groupListShape (groups (run events booting)).
Proof. apply consistent_booting. Qed.

Lemma at_index_elem_of {A : Type} (arr : list A) i x :
  at_index arr i = Some x → x ∈ arr.
Proof.
  destruct i as [|z]; simpl; [done|]. destruct (decide (0 ≤ z)); [|done].
  apply list_elem_of_lookup_2.
Qed.

(** X10: whatever the events before it, [enter] starts the player only after
    a probe that ended with status 0, only with the configured command, and
    only on the url of a visible channel, which is never empty. *)
Theorem keyEnter_launches `{Collator} events cfg scroll probeStatus cmd target e :
  e ∈ keyEnter cfg scroll probeStatus (run events booting) →
  launches cmd target e →
  probeStatus = Some 0 ∧ cmd = MPV_CMD cfg ∧ target ≠ "" ∧
  ∃ c, c ∈ filtered (run events booting) ∧ url c = target.
Proof.
  intros He Hlaunch. unfold keyEnter in He.
  destruct (at_index (filtered (run events booting)) (default (Int 0) scroll))
    as [c|] eqn:Hc; [|by apply elem_of_nil in He].
  apply at_index_elem_of in Hc.
  assert (url c ≠ "") as Hurl.
  { destruct (consistent_booting events) as (_ & _ & _ & Hfiltered & _).
    rewrite Forall_forall in Hfiltered. by apply Hfiltered. }
  unfold playInMpv, ensureMpvAvailable in He.
  destruct (decide (probeStatus = Some 0)) as [->|Hprobe].
  - rewrite bool_decide_eq_true_2 in He by done. simpl in He.
    destruct (STAY cfg); simpl in He;
      repeat (apply elem_of_cons in He as [->|He]);
      try (by apply elem_of_nil in He);
      destruct Hlaunch as [[=]|[=]]; subst;
      (split_and!; [done|done|done|by exists c]).
  - rewrite bool_decide_eq_false_2 in He by done. simpl in He.
    repeat (apply elem_of_cons in He as [->|He]);
      try (by apply elem_of_nil in He); by destruct Hlaunch.
Qed.

Lemma keyEnter_launches_witness :
  Some 0 = Some 0 ∧ "mpv" = MPV_CMD (mkConfig true "mpv") ∧ "http://x/2" ≠ "" ∧
  ∃ c, c ∈ filtered (@run codeUnitCollator
                      [ReloadRequested; FetchSettled (Text example1)] booting) ∧
       url c = "http://x/2".
Proof.
  apply (@keyEnter_launches codeUnitCollator
           [ReloadRequested; FetchSettled (Text example1)]
           (mkConfig true "mpv") (Some (Int 1)) (Some 0) "mpv" "http://x/2"
           (SpawnDetached "mpv" "http://x/2")).
  - vm_compute. right. right. left.
  - by right.
Defined.

(** X11: [enter] does nothing in an empty view, whatever row the list
    reports.  When the probe of the player fails, [enter] only shows
    messages, the last one being the error: the player is not started and
    the screen is kept, with or without [--stay]. *)
Theorem keyEnter_without_player cfg scroll probeStatus st :
  (filtered st = [] → keyEnter cfg scroll probeStatus st = []) ∧
  (probeStatus ≠ Some 0 →
     Forall harmless (keyEnter cfg scroll probeStatus st) ∧
     (is_Some (at_index (filtered st) (default (Int 0) scroll)) →
      last (keyEnter cfg scroll probeStatus st) =
      Some (ShowError
        "mpv not found. Install mpv or pass a custom binary with --mpv <path>."))).
Proof.
  unfold keyEnter. split.
  - intros ->. by destruct (default (Int 0) scroll) as [|z]; simpl;
      [|destruct (decide (0 ≤ z))].
  - intros Hprobe.
    destruct (at_index (filtered st) (default (Int 0) scroll)) as [c|];
      [|split; [done|by intros [? ?]]].
    unfold playInMpv, ensureMpvAvailable.
    rewrite bool_decide_eq_false_2 by done. simpl.
    split; [by repeat constructor|done].
Qed.

Lemma keyEnter_without_player_witness :
  keyEnter (mkConfig false "mpv") (Some (Int 3)) (Some 0) booting = [] ∧
  keyEnter (mkConfig false "mpv") None None loaded1 =
    [ShowPlaying "ACME News"; Probe "mpv";
     ShowError "mpv not found. Install mpv or pass a custom binary with --mpv <path>."].
Proof.
  split.
  - by apply keyEnter_without_player.
  - destruct (keyEnter_without_player (mkConfig false "mpv") None None loaded1)
      as [_ [_ Hlast]]; [done|]. reflexivity.
Defined.

(** ** Cycling before the first load *)

Section Stuck.
Context `{Collator}.

Lemma groupIdx_handle_NaN e st : groupIdx st = NaN → groupIdx (handle e st) = NaN.
Proof.
  intros Hst. destruct e as [| | |r|v|]; unfold handle.
  - by rewrite groupIdx_keyTab, Hst.
  - by rewrite groupIdx_keyShiftTab, Hst.
  - done.
  - by rewrite groupIdx_loadPlaylistResume.
  - done.
  - done.
Qed.

Lemma groupIdx_run_NaN events st : groupIdx st = NaN → groupIdx (run events st) = NaN.
Proof.
  revert st. induction events as [|e events IH]; intros st Hst; [done|].
  simpl. by apply IH, groupIdx_handle_NaN.
Qed.

Lemma remainder_zero x : remainder x 0 = NaN.
Proof. by destruct x. Qed.

End Stuck.

(** X12: [tab] or [S-tab] pressed while the group list is empty (before the
    first load has ended) makes the group index [NaN], and no later event
    brings it back: from then on the filter uses "All", whatever is loaded
    and however often the group is cycled. *)
Theorem cycling_before_first_load `{Collator} events st :
  groups st = [] →
  groupIdx (run events (keyTab st)) = NaN ∧
  groupIdx (run events (keyShiftTab st)) = NaN ∧
  activeGroup (run events (keyTab st)) = "All" ∧
  activeGroup (run events (keyShiftTab st)) = "All".
Proof.
  intros Hgroups.
  assert (groupIdx (run events (keyTab st)) = NaN) as Htab.
  { apply groupIdx_run_NaN. by rewrite groupIdx_keyTab, Hgroups, remainder_zero. }
  assert (groupIdx (run events (keyShiftTab st)) = NaN) as Hback.
  { apply groupIdx_run_NaN.
    by rewrite groupIdx_keyShiftTab, Hgroups, remainder_zero. }
  unfold activeGroup. by rewrite Htab, Hback.
Qed.

Lemma cycling_before_first_load_witness :
  groupIdx (@run codeUnitCollator
              [ReloadRequested; FetchSettled (Text example4); Tab; ShiftTab]
              (keyTab booting)) = NaN ∧
  activeGroup (@run codeUnitCollator
                 [ReloadRequested; FetchSettled (Text example4); Tab; ShiftTab]
                 (keyTab booting)) = "All".
Proof.
  destruct (@cycling_before_first_load codeUnitCollator
              [ReloadRequested; FetchSettled (Text example4); Tab; ShiftTab] booting)
    as (Hidx & _ & Hgroup & _); [reflexivity|]. by split.
Defined.

(** ** Forth and back *)

Lemma remainder_forth_back i n :
  0 ≤ i < n →
  remainder (plus (plus (remainder (plus (Int i) 1) n) (-1)) n) n = Int i.
Proof.
  intros Hi. unfold plus. rewrite remainder_nonneg by lia. unfold plus.
  assert (0 ≤ (i + 1) mod n < n) by (apply Z.mod_pos_bound; lia).
  rewrite remainder_nonneg by lia. f_equal.
  destruct (decide (i + 1 = n)) as [Heq|Hne].
  - rewrite Heq, Z_mod_same_full. replace (0 + -1 + n) with (n - 1) by lia.
    rewrite Z.mod_small by lia. lia.
  - rewrite (Z.mod_small (i + 1)) by lia.
    replace (i + 1 + -1 + n) with (i + 1 * n) by lia.
    rewrite Z_mod_plus_full. apply Z.mod_small. lia.
Qed.

Lemma remainder_back_forth i n :
  0 ≤ i < n →
  remainder (plus (remainder (plus (plus (Int i) (-1)) n) n) 1) n = Int i.
Proof.
  intros Hi. unfold plus. rewrite remainder_nonneg by lia. unfold plus.
  assert (0 ≤ (i + -1 + n) mod n < n) by (apply Z.mod_pos_bound; lia).
  rewrite remainder_nonneg by lia. f_equal.
  destruct (decide (i = 0)) as [->|Hne].
  - replace (0 + -1 + n) with (n - 1) by lia. rewrite (Z.mod_small (n - 1)) by lia.
    replace (n - 1 + 1) with n by lia. apply Z_mod_same_full.
  - replace (i + -1 + n) with (i - 1 + 1 * n) by lia.
    rewrite Z_mod_plus_full, (Z.mod_small (i - 1)) by lia.
    replace (i - 1 + 1) with i by lia. apply Z.mod_small. lia.
Qed.

(** X13: from an index of the group list, [tab] followed by [S-tab], or
    [S-tab] followed by [tab], leaves the state as a plain recomputation of
    the filter does: same group, same visible channels. *)
Theorem tab_shiftTab_inverse st i :
  groupIdx st = Int i → 0 ≤ i < Z.of_nat (length (groups st)) →
  keyShiftTab (keyTab st) = applyFilter st ∧
  keyTab (keyShiftTab st) = applyFilter st.
Proof.
  intros Hi Hrange.
  assert (groupIdx (keyShiftTab (keyTab st)) = groupIdx st) as Hforth.
  { rewrite groupIdx_keyShiftTab, groups_keyTab, groupIdx_keyTab, Hi.
    by apply remainder_forth_back. }
  assert (groupIdx (keyTab (keyShiftTab st)) = groupIdx st) as Hback.
  { rewrite groupIdx_keyTab, groupIdx_keyShiftTab, Hi.
    by apply remainder_back_forth. }
  split.
  - unfold keyShiftTab at 1, applyFilter. rewrite groupIdx_keyShiftTab in Hforth.
    simpl in *. by rewrite Hforth.
  - unfold keyTab at 1, applyFilter. rewrite groupIdx_keyTab in Hback.
    simpl in *. by rewrite Hback.
Qed.

Lemma tab_shiftTab_inverse_witness :
  keyShiftTab (keyTab browsingNews) = applyFilter browsingNews ∧
  keyTab (keyShiftTab browsingNews) = applyFilter browsingNews.
Proof. apply (tab_shiftTab_inverse browsingNews 2); [reflexivity|]. vm_compute. split; congruence. Defined.

(** ** Narrowing the query *)

Lemma occursIn_trans a b c : occursIn a b → occursIn b c → occursIn a c.
Proof.
  intros (p1 & s1 & ->) (p2 & s2 & ->).
  exists (p2 +:+ p1), (s1 +:+ s2). by rewrite !string_app_assoc.
Qed.

Lemma occursIn_empty a : occursIn a "" → a = "".
Proof.
  intros (pre & post & Heq). destruct pre; [|done]. by destruct a.
Qed.

Lemma filter_sublist_implies {A : Type} (p q : A → bool) l :
  (∀ x, p x = true → q x = true) →
  List.filter p l `sublist_of` List.filter q l.
Proof.
  intros Hpq. induction l as [|x l IH]; simpl; [done|].
  destruct (p x) eqn:Hp.
  - rewrite (Hpq x Hp). by constructor.
  - destruct (q x); [by constructor|done].
Qed.

Lemma matches_narrow q q' g c :
  occursIn q q' → matches q' g c = true → matches q g c = true.
Proof.
  intros Hq. unfold matches. rewrite !andb_true_iff, !orb_true_iff.
  rewrite !bool_decide_eq_true, !includes_spec.
  intros [Hg [->|Hq']]; (split; [done|]).
  - left. by apply occursIn_empty.
  - right. by apply (occursIn_trans q q').
Qed.

(** X14: a query that contains another one (both trimmed, up to case) never
    shows more: its visible channels are a sublist of the other's. *)
Theorem searchKeypress_narrows v v' st :
  occursIn (Js.toLowerCase (Js.trim v)) (Js.toLowerCase (Js.trim v')) →
  filtered (searchKeypress v' st) `sublist_of` filtered (searchKeypress v st).
Proof.
  intros Hq. unfold searchKeypress. rewrite !filtered_applyFilter. simpl.
  apply filter_sublist_implies. intros c. by apply matches_narrow.
Qed.

Lemma searchKeypress_narrows_witness :
  filtered (searchKeypress " Jazz " loaded1) `sublist_of`
  filtered (searchKeypress "a" loaded1).
Proof.
  apply searchKeypress_narrows. apply includes_spec. reflexivity.
Defined.

(** ** No empty group *)

Lemma at_index_tail {A : Type} (x : A) rest i y :
  at_index (x :: rest) i = Some y → i ≠ Int 0 → y ∈ rest.
Proof.
  destruct i as [|z]; simpl; [done|]. destruct (decide (0 ≤ z)); [|done].
  intros Hy Hz. destruct (Z.to_nat z) as [|n] eqn:Hn.
  - destruct Hz. f_equal. lia.
  - simpl in Hy. by apply list_elem_of_lookup_2 in Hy.
Qed.

(** X15: in a state whose group list was derived from its catalog, a group
    reached by cycling (any index but 0) is never empty under a blank query;
    and unless its label is "All", it shows exactly the channels of the
    catalog whose group equals the label up to case. *)
Theorem group_not_empty `{Collator} st g :
  groups st = "All" :: sort (λ a b, localeCompare a b) (groupSet (all st)) →
  at_index (groups st) (groupIdx st) = Some g →
  groupIdx st ≠ Int 0 →
  Js.trim (searchValue st) = "" →
  filtered (applyFilter st) ≠ [] ∧
  (g ≠ "All" → ∀ c, c ∈ filtered (applyFilter st) ↔ c ∈ all st ∧ sameGroup c g).
Proof.
  intros Hgroups Hg Hidx Hq.
  assert (g ∈ groupSet (all st)) as Hin.
  { rewrite Hgroups in Hg. apply at_index_tail in Hg; [|done].
    by rewrite sort_Permutation in Hg. }
  apply groupSet_elem in Hin as (Hne & c0 & Hc0 & Hgc0).
  assert (activeGroup st = g) as Hactive.
  { unfold activeGroup. rewrite Hg. by destruct g. }
  assert (∀ c, c ∈ filtered (applyFilter st) ↔ c ∈ all st ∧ (g = "All" ∨ sameGroup c g))
    as Hvisible.
  { intros c. rewrite filtered_applyFilter, Hq, Hactive, list_elem_of_In, filter_In.
    rewrite <- list_elem_of_In, (matches_visible "" g c).
    unfold visible, queryMatches. intuition. }
  split.
  - intros Hnil. assert (c0 ∈ filtered (applyFilter st)) as Hc; [|by rewrite Hnil in Hc; apply elem_of_nil in Hc].
    apply Hvisible. split; [done|]. right. by exists g.
  - intros Hall c. rewrite Hvisible. intuition.
Qed.

Lemma group_not_empty_witness :
  filtered (applyFilter (keyTab loaded4)) ≠ [] ∧
  ("Music" ≠ "All" →
   ∀ c, c ∈ filtered (applyFilter (keyTab loaded4)) ↔
        c ∈ all (keyTab loaded4) ∧ sameGroup c "Music").
Proof.
  apply (@group_not_empty codeUnitCollator (keyTab loaded4) "Music").
  - vm_compute. reflexivity.
  - reflexivity.
  - discriminate.
  - reflexivity.
Defined.

(** ** The footer after a load *)

Lemma length_setAdd x set : (length (setAdd x set) ≤ S (length set))%nat.
Proof.
  unfold setAdd. destruct (decide (x ∈ set)); [lia|].
  rewrite length_app. simpl. lia.
Qed.

Lemma length_foldl_addGroup channels set :
  (length (foldl addGroup set channels) ≤ length set + length channels)%nat.
Proof.
  revert set. induction channels as [|c channels IH]; intros set; simpl; [lia|].
  etrans; [apply IH|]. unfold addGroup.
  destruct (group c) as [[|a g]|]; [lia| |lia].
  pose proof (length_setAdd (String a g) set). lia.
Qed.

Lemma length_groupSet channels : (length (groupSet channels) ≤ length channels)%nat.
Proof. apply (length_foldl_addGroup channels []). Qed.

(** X16: after a load that found channels, the footer reports the number of
    channels, at least 1, and the number of group labels after "All", which
    lies between 0 and the number of channels. *)
Theorem loadPlaylist_footer `{Collator} text st :
  parseM3U text ≠ [] →
  ∃ n g,
    footer (loadPlaylist (Text text) st) = Loaded n g ∧
    n = Z.of_nat (length (all (loadPlaylist (Text text) st))) ∧
    g = Z.of_nat (length (groups (loadPlaylist (Text text) st))) - 1 ∧
    1 ≤ n ∧ 0 ≤ g ≤ n.
Proof.
  intros Hne. rewrite loadPlaylist_success by done. simpl.
  eexists _, _. split_and!; [done..| | |].
  - destruct (parseM3U text); simpl; [done|lia].
  - lia.
  - pose proof (length_groupSet (parseM3U text)) as Hlen.
    rewrite <- (Permutation_length (sort_Permutation (groupSet (parseM3U text)))) in Hlen.
    lia.
Qed.

Lemma loadPlaylist_footer_witness :
  ∃ n g,
    footer (@loadPlaylist codeUnitCollator (Text example4) booting) = Loaded n g ∧
    n = Z.of_nat (length (all (@loadPlaylist codeUnitCollator (Text example4) booting))) ∧
    g = Z.of_nat (length (groups (@loadPlaylist codeUnitCollator (Text example4) booting))) - 1 ∧
    1 ≤ n ∧ 0 ≤ g ≤ n.
Proof.
  apply (@loadPlaylist_footer codeUnitCollator example4 booting).
  vm_compute. discriminate.
Defined.

(** ** A reload that fails *)

(** X17: a reload that fails, because the fetch throws or because the text
    holds no channel, changes nothing of what is shown but the footer: the
    visible channels, the rows, the group list, the group index and the text
    of the search box stay, and the footer shows the error. *)
Theorem failed_reload_keeps_view `{Collator} r st :
  (∀ text, r = Text text → parseM3U text = []) →
  filtered (loadPlaylist r st) = filtered st ∧
  listItems (loadPlaylist r st) = listItems st ∧
  listSelected (loadPlaylist r st) = listSelected st ∧
  headerGroup (loadPlaylist r st) = headerGroup st ∧
  groups (loadPlaylist r st) = groups st ∧
  groupIdx (loadPlaylist r st) = groupIdx st ∧
  searchValue (loadPlaylist r st) = searchValue st ∧
  ∃ message, footer (loadPlaylist r st) = Failure message.
Proof.
  intros Hfail. destruct r as [text|message].
  - unfold loadPlaylist, loadPlaylistResume. simpl.
    rewrite (Hfail text eq_refl). simpl. split_and!; [done..|]. by eexists.
  - split_and!; [done..|]. by eexists.
Qed.

Lemma failed_reload_keeps_view_witness :
  filtered (@loadPlaylist codeUnitCollator (Text "#EXTM3U") browsingNews)
    = filtered browsingNews ∧
  groups (@loadPlaylist codeUnitCollator (Text "#EXTM3U") browsingNews)
    = groups browsingNews.
Proof.
  destruct (@failed_reload_keeps_view codeUnitCollator (Text "#EXTM3U") browsingNews)
    as (Hf & _ & _ & _ & Hg & _).
  - intros text [= <-]. reflexivity.
  - by split.
Defined.

(** ** The sidebar *)




(** ** The keys of a record *)

Lemma lastValue_elem_of k v pairs : lastValue k pairs = Some v → (k, v) ∈ pairs.
Proof.
  unfold lastValue. destruct (last _) as [[k' v']|] eqn:Hlast; [|done].
  intros [= <-]. apply last_Some_elem_of, list_elem_of_filter in Hlast as [Hk Hin].
  simpl in Hk. by subst.
Qed.

(** X19: every attribute kept in a record was written on the marker line of
    that record, the line that its name and its attributes are taken from:
    the key is a non-empty word of letters, digits, underscores and hyphens
    other than [__proto__], the value holds no double quote, and that line
    holds the key, an equals sign and the quoted value. *)
Theorem parseM3U_attrs_written text c k v :
  c ∈ parseM3U text → attrs c !! k = Some v →
  k ≠ "__proto__" ∧ keyAndValue k v ∧
  ∃ l, l ∈ Js.splitLines text ∧
       Js.startsWith "#EXTINF" (Js.trim l) = true ∧
       name c = channelName (Js.trim l) ∧
       attrs c = extractAttrs (Js.trim l) ∧
       (k, v) ∈ execAll (Js.trim l) ∧
       occursIn (attribute k v) (Js.trim l).
Proof.
  intros (l & Hl & Hmarker & Hname & Hattrs)%parseM3U_name_attrs Hkv.
  rewrite Hattrs in Hkv.
  assert (k ≠ "__proto__") as Hk.
  { intros ->. by rewrite extractAttrs_proto in Hkv. }
  rewrite extractAttrs_lookup in Hkv by done.
  apply lastValue_elem_of in Hkv.
  destruct (execAll_sound _ _ _ Hkv) as (pre & post & Hline & Hwf).
  split_and!; [done|done|]. exists l.
  split_and!; [done..|]. by exists pre, post.
Qed.

Lemma parseM3U_attrs_written_witness :
  "group-title" ≠ "__proto__" ∧ keyAndValue "group-title" "News" ∧
  ∃ l, l ∈ Js.splitLines example1 ∧
       Js.startsWith "#EXTINF" (Js.trim l) = true ∧
       name acmeNews = channelName (Js.trim l) ∧
       attrs acmeNews = extractAttrs (Js.trim l) ∧
       ("group-title", "News") ∈ execAll (Js.trim l) ∧
       occursIn (attribute "group-title" "News") (Js.trim l).
Proof.
  apply (parseM3U_attrs_written example1 acmeNews).
  - rewrite parseM3U_example1. left.
  - reflexivity.
Defined.

(** ** The first load and a second one *)

Section FirstLoad.
Context `{Collator}.

(** While no load has found channels the group list is empty and the group
    index is 0, or [NaN] once the group was cycled. *)
Lemma groups_handle_nil e st : groups (handle e st) = [] → groups st = [].
Proof.
  destruct e as [| | |r|v|]; unfold handle; try done.
  destruct r as [text|message]; [|done]. unfold loadPlaylistResume.
  by destruct (decide _).
Qed.

Lemma groupIdx_handle_before_load e st :
  groups st = [] → groupIdx st = Int 0 ∨ groupIdx st = NaN →
  groupIdx (handle e st) = Int 0 ∨ groupIdx (handle e st) = NaN.
Proof.
  intros Hgroups Hidx. destruct e as [| | |r|v|]; unfold handle.
  - right. by rewrite groupIdx_keyTab, Hgroups, remainder_zero.
  - right. by rewrite groupIdx_keyShiftTab, Hgroups, remainder_zero.
  - done.
  - by rewrite groupIdx_loadPlaylistResume.
  - done.
  - done.
Qed.

Lemma run_snoc events e st : run (events ++ [e]) st = handle e (run events st).
Proof. unfold run. by rewrite foldl_app. Qed.

Lemma groupIdx_run_before_load events st :
  groups (run events st) = [] → groupIdx st = Int 0 ∨ groupIdx st = NaN →
  groups st = [] ∧
  (groupIdx (run events st) = Int 0 ∨ groupIdx (run events st) = NaN).
Proof.
  induction events as [|e events IH] using rev_ind; [done|].
  rewrite run_snoc. intros Hnil Hidx.
  destruct (IH (groups_handle_nil _ _ Hnil) Hidx) as [Hst Hrun].
  split; [done|]. apply groupIdx_handle_before_load; [|done].
  by apply (groups_handle_nil e).
Qed.

Lemma filter_matches_blank_All (l : list Channel) :
  List.filter (matches "" "All") l = l.
Proof. induction l as [|c l IH]; [done|]. simpl. by rewrite IH. Qed.

End FirstLoad.

(** X20: the first load that finds channels shows all of them, in the order
    of the playlist, whatever keys were pressed while it was pending,
    provided that the search box is blank (empty once trimmed) when the fetch
    settles.  Text typed in the meantime filters the first view. *)
Theorem first_load_shows_all `{Collator} events text :
  groups (run events booting) = [] →
  Js.trim (searchValue (run events booting)) = "" →
  parseM3U text ≠ [] →
  filtered (run (events ++ [FetchSettled (Text text)]) booting) = parseM3U text ∧
  listItems (run (events ++ [FetchSettled (Text text)]) booting)
    = fmtItem <$> parseM3U text.
Proof.
  intros Hgroups Hblank Hne.
  destruct (groupIdx_run_before_load events booting Hgroups) as [_ Hidx];
    [by left|].
  rewrite run_snoc. unfold handle, loadPlaylistResume.
  destruct (decide _) as [Hempty|_];
    [by apply nil_length_inv in Hempty|].
  assert (filtered (applyFilter
            (status (Loaded (Z.of_nat (length (all (computeGroups
                       (setAll (parseM3U text) (run events booting))))))
                            (Z.of_nat (length (groups (computeGroups
                       (setAll (parseM3U text) (run events booting))))) - 1))
               (computeGroups (setAll (parseM3U text) (run events booting)))))
          = parseM3U text) as Hfiltered.
  { rewrite filtered_applyFilter. simpl searchValue. rewrite Hblank.
    unfold activeGroup. simpl groups. simpl groupIdx.
    destruct Hidx as [-> | ->]; simpl; apply filter_matches_blank_All. }
  split; [exact Hfiltered|].
  change (listItems (applyFilter ?st)) with (fmtItem <$> filtered (applyFilter st)).
  by rewrite Hfiltered.
Qed.

Lemma first_load_shows_all_witness :
  filtered (@run codeUnitCollator
              ([ReloadRequested; Tab; SearchKeypress " "] ++
               [FetchSettled (Text example4)]) booting) = parseM3U example4 ∧
  listItems (@run codeUnitCollator
               ([ReloadRequested; Tab; SearchKeypress " "] ++
                [FetchSettled (Text example4)]) booting)
    = fmtItem <$> parseM3U example4.
Proof.
  apply (@first_load_shows_all codeUnitCollator
           [ReloadRequested; Tab; SearchKeypress " "] example4).
  - reflexivity.
  - reflexivity.
  - vm_compute. discriminate.
Defined.

(** Text typed while the first fetch is pending filters the first view. *)
Example first_load_filtered :
  filtered (@run codeUnitCollator
              [ReloadRequested; SearchKeypress "zzz"; FetchSettled (Text example1)]
              booting) = [].
Proof. vm_compute. reflexivity. Qed.

(** X21: reloading a playlist that has not changed changes nothing: the
    state after the second load is the state after the first. *)
Theorem reload_unchanged `{Collator} text st :
  parseM3U text ≠ [] →
  loadPlaylist (Text text) (loadPlaylist (Text text) st) = loadPlaylist (Text text) st.
Proof.
  intros Hne. rewrite !loadPlaylist_success by done. reflexivity.
Qed.

Lemma reload_unchanged_witness :
  @loadPlaylist codeUnitCollator (Text example1)
    (@loadPlaylist codeUnitCollator (Text example1) browsingNews)
  = @loadPlaylist codeUnitCollator (Text example1) browsingNews.
Proof. apply (@reload_unchanged codeUnitCollator). vm_compute. discriminate. Defined.
